(** * caching-lib: a bounded key/value cache with TTL and pluggable eviction

    Shallow embedding of the Go packages [storage], [eviction] and [cache].

    Conventions of the embedding.
    - Instants ([time.Time]) and durations ([time.Duration], an int64 count
      of nanoseconds) are integers; an instant is the number of nanoseconds
      since the zero instant [time.Time{}].
    - Every function that reads the wall clock ([time.Now()]) takes the
      reading as its first argument [now].  One public operation of the
      cache uses one reading.
    - Go maps are [gmap]s; the pointer-valued map [items] of a policy, which
      only locates the list node carrying the same key, is the [gset] of its
      keys, and a [container/list] is a [list] whose head is the front.
    - Locks are not modelled: operations run one at a time.  The
      [threadSafe] flags are kept where they select a code path.
    - The [sync.Pool]s are not modelled: the coordinator never refills its
      pool, so [itemPool.Get()] always yields a zero [Item], and nothing
      reads an item after it was handed back to the store's pool. *)

From stdpp Require Import gmap strings list fin_maps.
From Stdlib Require Import ZArith Lia.

Set Warnings "-clear-no-such-hyp".

(** ** Package storage *)

Module storage.
Section storage.
Context {K : Type} `{Countable K} {V : Type}.
Local Open Scope Z_scope.

(** cache item with optional TTL *)
Record Item := mkItem {
  Value : V;
  ExpiresAt : Z;
  HasTTL : bool
}.

(** [time.Now().After(i.ExpiresAt)] is the strict comparison. *)
Definition IsExpired (now : Z) (i : Item) : bool :=
  HasTTL i && (ExpiresAt i <? now).

Definition SetTTL (now ttl : Z) (i : Item) : Item :=
  if bool_decide (ttl ≠ 0)
  then {| Value := Value i; ExpiresAt := now + ttl; HasTTL := true |}
  else {| Value := Value i; ExpiresAt := ExpiresAt i; HasTTL := false |}.

(** What [ItemPool.Get] returns, with its [Value] field already assigned. *)
Definition newItem (value : V) : Item :=
  {| Value := value; ExpiresAt := 0; HasTTL := false |}.

(** in-memory storage with map *)
Record memoryStorage := mkStorage {
  data : gmap K Item;
  threadSafe : bool
}.

Definition with_data (d : gmap K Item) (s : memoryStorage) : memoryStorage :=
  {| data := d; threadSafe := threadSafe s |}.

Definition NewMemoryStorage : memoryStorage :=
  {| data := ∅; threadSafe := true |}.

Definition NewMemoryStorageWithConfig (capacity : Z) (ts : bool)
  : memoryStorage :=
  {| data := ∅; threadSafe := ts |}.

(** An expired entry is deleted by the lookup itself.  The thread-safe
    path looks the key up a second time once it holds the write lock. *)
Definition Get (now : Z) (key : K) (s : memoryStorage)
  : option Item * memoryStorage :=
  match data s !! key with
  | None => (None, s)
  | Some item =>
    if IsExpired now item then
      if threadSafe s then
        match data s !! key with
        | Some item' =>
          if IsExpired now item'
          then (None, with_data (delete key (data s)) s)
          else (None, s)
        | None => (None, s)
        end
      else (None, with_data (delete key (data s)) s)
    else (Some item, s)
  end.

Definition Set_ (key : K) (item : Item) (s : memoryStorage) : memoryStorage :=
  with_data (<[key := item]> (data s)) s.

Definition Delete (key : K) (s : memoryStorage) : bool * memoryStorage :=
  match data s !! key with
  | Some _ => (true, with_data (delete key (data s)) s)
  | None => (false, s)
  end.

Definition Clear (s : memoryStorage) : memoryStorage := with_data ∅ s.

Definition Size (s : memoryStorage) : Z := Z.of_nat (size (data s)).

(** The iteration order of a Go map is unspecified; the model lists the
    keys in the order of [map_to_list]. *)
Definition Keys (s : memoryStorage) : list K := (map_to_list (data s)).*1.

(** cleanup expired stuff: every expired entry is deleted and counted. *)
Definition CleanupExpired (now : Z) (s : memoryStorage) : Z * memoryStorage :=
  (Z.of_nat (size (filter (λ kv, IsExpired now kv.2 = true) (data s))),
   with_data (filter (λ kv, IsExpired now kv.2 = false) (data s)) s).

Definition Reserve (capacity : Z) (s : memoryStorage) : memoryStorage :=
  if bool_decide (size (data s) = 0%nat ∧ capacity > 0)
  then with_data ∅ s
  else s.

End storage.
Arguments Item : clear implicits.
Arguments memoryStorage K {_ _} V.
End storage.

(** ** Package eviction *)

Module eviction.

Section iface.
Context {K : Type} `{Countable K}.
Local Open Scope Z_scope.

(** [Policy] is a Go interface: a value of it carries a receiver of some
    concrete type together with that type's methods. *)
Record Policy := mkPolicy {
  PState : Type;
  self : PState;
  Access_ : K → PState → PState;
  Evict_ : PState → option K * PState;
  Remove_ : K → PState → PState;
  Clear_ : PState → PState;
  Size_ : PState → Z
}.

Definition with_self (p : Policy) (s : PState p) : Policy :=
  mkPolicy (PState p) s (Access_ p) (Evict_ p) (Remove_ p) (Clear_ p) (Size_ p).

(** Access - called when key is accessed (get/set) *)
Definition Access (key : K) (p : Policy) : Policy :=
  with_self p (Access_ p key (self p)).

(** Evict - returns key to evict, or [None] if nothing *)
Definition Evict (p : Policy) : option K * Policy :=
  ((Evict_ p (self p)).1, with_self p (Evict_ p (self p)).2).

(** Remove - called when key is manually deleted *)
Definition Remove (key : K) (p : Policy) : Policy :=
  with_self p (Remove_ p key (self p)).

(** Clear - removes all tracked keys *)
Definition Clear (p : Policy) : Policy :=
  with_self p (Clear_ p (self p)).

(** Size - number of tracked keys *)
Definition Size (p : Policy) : Z := Size_ p (self p).

(** [order.Remove(elem)] for the node [elem] that carries [key]. *)
Fixpoint remove_node (key : K) (l : list K) : list K :=
  match l with
  | [] => []
  | x :: l' => if decide (x = key) then l' else x :: remove_node key l'
  end.
End iface.
Arguments Policy K : clear implicits.
Arguments Access : simpl never.
Arguments Evict : simpl never.
Arguments Remove : simpl never.
Arguments Clear : simpl never.
Arguments Size : simpl never.

(** LRU eviction policy implementation *)
Module lru.
Section lru.
Context {K : Type} `{Countable K}.
Local Open Scope Z_scope.

Record lruPolicy := mk {
  capacity : Z;
  items : gset K;
  order : list K;
  threadSafe : bool
}.

Definition upd (its : gset K) (ord : list K) (p : lruPolicy) : lruPolicy :=
  {| capacity := capacity p; items := its; order := ord;
     threadSafe := threadSafe p |}.

(** moves key to front (most recent) *)
Definition Access (key : K) (p : lruPolicy) : lruPolicy :=
  if decide (key ∈ items p)
  then upd (items p) (key :: remove_node key (order p)) p
  else upd ({[key]} ∪ items p) (key :: order p) p.

(** removes and returns least recently used key *)
Definition Evict (p : lruPolicy) : option K * lruPolicy :=
  if bool_decide (length (order p) = 0%nat) then (None, p)
  else match last (order p) with
       | Some key =>
         (Some key, upd (items p ∖ {[key]}) (removelast (order p)) p)
       | None => (None, p)
       end.

(** removes key from tracking *)
Definition Remove (key : K) (p : lruPolicy) : lruPolicy :=
  if decide (key ∈ items p)
  then upd (items p ∖ {[key]}) (remove_node key (order p)) p
  else p.

Definition Clear (p : lruPolicy) : lruPolicy := upd ∅ [] p.

(** number of tracked keys *)
Definition Size (p : lruPolicy) : Z := Z.of_nat (size (items p)).

Definition NewLRUWithConfig (cap : Z) (ts : bool) : lruPolicy :=
  {| capacity := if bool_decide (cap ≤ 0) then 100 else cap;
     items := ∅; order := []; threadSafe := ts |}.

Definition NewLRU (cap : Z) : lruPolicy := NewLRUWithConfig cap true.
End lru.
Arguments lruPolicy K {_ _}.
End lru.

(** FIFO eviction policy *)
Module fifo.
Section fifo.
Context {K : Type} `{Countable K}.
Local Open Scope Z_scope.

Record fifoPolicy := mk {
  capacity : Z;
  items : gset K;
  order : list K;
  threadSafe : bool
}.

Definition upd (its : gset K) (ord : list K) (p : fifoPolicy) : fifoPolicy :=
  {| capacity := capacity p; items := its; order := ord;
     threadSafe := threadSafe p |}.

Definition Access (key : K) (p : fifoPolicy) : fifoPolicy :=
  if decide (key ∈ items p) then p
  else upd ({[key]} ∪ items p) (order p ++ [key]) p.

Definition Evict (p : fifoPolicy) : option K * fifoPolicy :=
  if bool_decide (length (order p) = 0%nat) then (None, p)
  else match order p with
       | key :: rest => (Some key, upd (items p ∖ {[key]}) rest p)
       | [] => (None, p)
       end.

Definition Remove (key : K) (p : fifoPolicy) : fifoPolicy :=
  if decide (key ∈ items p)
  then upd (items p ∖ {[key]}) (remove_node key (order p)) p
  else p.

Definition Clear (p : fifoPolicy) : fifoPolicy := upd ∅ [] p.

Definition Size (p : fifoPolicy) : Z := Z.of_nat (size (items p)).

Definition NewFIFOWithConfig (cap : Z) (ts : bool) : fifoPolicy :=
  {| capacity := if bool_decide (cap ≤ 0) then 100 else cap;
     items := ∅; order := []; threadSafe := ts |}.

Definition NewFIFO (cap : Z) : fifoPolicy := NewFIFOWithConfig cap true.
End fifo.
Arguments fifoPolicy K {_ _}.
End fifo.

(** LIFO eviction policy *)
Module lifo.
Section lifo.
Context {K : Type} `{Countable K}.
Local Open Scope Z_scope.

Record lifoPolicy := mk {
  capacity : Z;
  items : gset K;
  order : list K;
  threadSafe : bool
}.

Definition upd (its : gset K) (ord : list K) (p : lifoPolicy) : lifoPolicy :=
  {| capacity := capacity p; items := its; order := ord;
     threadSafe := threadSafe p |}.

Definition Access (key : K) (p : lifoPolicy) : lifoPolicy :=
  if decide (key ∈ items p) then p
  else upd ({[key]} ∪ items p) (order p ++ [key]) p.

Definition Evict (p : lifoPolicy) : option K * lifoPolicy :=
  if bool_decide (length (order p) = 0%nat) then (None, p)
  else match last (order p) with
       | Some key =>
         (Some key, upd (items p ∖ {[key]}) (removelast (order p)) p)
       | None => (None, p)
       end.

Definition Remove (key : K) (p : lifoPolicy) : lifoPolicy :=
  if decide (key ∈ items p)
  then upd (items p ∖ {[key]}) (remove_node key (order p)) p
  else p.

Definition Clear (p : lifoPolicy) : lifoPolicy := upd ∅ [] p.

Definition Size (p : lifoPolicy) : Z := Z.of_nat (size (items p)).

Definition NewLIFOWithConfig (cap : Z) (ts : bool) : lifoPolicy :=
  {| capacity := if bool_decide (cap ≤ 0) then 100 else cap;
     items := ∅; order := []; threadSafe := ts |}.

Definition NewLIFO (cap : Z) : lifoPolicy := NewLIFOWithConfig cap true.
End lifo.
Arguments lifoPolicy K {_ _}.
End lifo.

Section objects.
Context {K : Type} `{Countable K}.

(** The three built-in policies as values of the interface. *)
Definition ofLRU (p : lru.lruPolicy K) : Policy K :=
  mkPolicy (lru.lruPolicy K) p lru.Access lru.Evict lru.Remove lru.Clear lru.Size.

Definition ofFIFO (p : fifo.fifoPolicy K) : Policy K :=
  mkPolicy (fifo.fifoPolicy K) p
           fifo.Access fifo.Evict fifo.Remove fifo.Clear fifo.Size.

Definition ofLIFO (p : lifo.lifoPolicy K) : Policy K :=
  mkPolicy (lifo.lifoPolicy K) p
           lifo.Access lifo.Evict lifo.Remove lifo.Clear lifo.Size.
End objects.

End eviction.

(** ** Package cache *)

Module cache.
Section cache.
Context {K : Type} `{Countable K} {V : Type}.
Local Open Scope Z_scope.

Definition Second : Z := 1000000000.
Definition Minute : Z := 60 * Second.
Definition Hour : Z := 60 * Minute.

(** The statistics are int64 counters; [atomic.AddInt64] wraps around. *)
Definition wrap64 (z : Z) : Z := (z + 2 ^ 63) mod 2 ^ 64 - 2 ^ 63.
Definition AddInt64 (x delta : Z) : Z := wrap64 (x + delta).

(** [stopCleanup] is a [chan struct{}] on which nothing is ever sent: all
    that matters is whether it has been closed.  Closing a closed channel
    panics. *)
Inductive chan := Open | Closed.

Definition close (ch : chan) : option chan :=
  match ch with
  | Open => Some Closed
  | Closed => None
  end.

Record cache := mkCache {
  storage : storage.memoryStorage K V;
  policy : eviction.Policy K;
  capacity : Z;
  defaultTTL : Z;
  maxTTL : Z;
  hits : Z;
  misses : Z;
  evictions : Z;
  threadSafe : bool;
  cleanupTicker : option Z;
  stopCleanup : chan
}.

Definition set_storage (s : storage.memoryStorage K V) (c : cache) : cache :=
  mkCache s (policy c) (capacity c) (defaultTTL c) (maxTTL c) (hits c)
          (misses c) (evictions c) (threadSafe c) (cleanupTicker c)
          (stopCleanup c).

Definition set_policy (p : eviction.Policy K) (c : cache) : cache :=
  mkCache (storage c) p (capacity c) (defaultTTL c) (maxTTL c) (hits c)
          (misses c) (evictions c) (threadSafe c) (cleanupTicker c)
          (stopCleanup c).

Definition set_stats (h m e : Z) (c : cache) : cache :=
  mkCache (storage c) (policy c) (capacity c) (defaultTTL c) (maxTTL c) h m e
          (threadSafe c) (cleanupTicker c) (stopCleanup c).

Definition set_ticker (t : option Z) (c : cache) : cache :=
  mkCache (storage c) (policy c) (capacity c) (defaultTTL c) (maxTTL c)
          (hits c) (misses c) (evictions c) (threadSafe c) t (stopCleanup c).

Definition set_stop (ch : chan) (c : cache) : cache :=
  mkCache (storage c) (policy c) (capacity c) (defaultTTL c) (maxTTL c)
          (hits c) (misses c) (evictions c) (threadSafe c) (cleanupTicker c)
          ch.

(** Config - cache setup *)
Record Config := mkConfig {
  Capacity : Z;
  EvictionPolicy : option (eviction.Policy K);
  Storage : option (storage.memoryStorage K V);
  ThreadSafe : bool;
  DefaultTTL : Z;
  MaxTTL : Z
}.

Definition Option_ : Type := Config → Config.

Definition WithCapacity (cap : Z) : Option_ := λ c,
  mkConfig (if bool_decide (cap ≤ 0) then 100 else cap)
           (EvictionPolicy c) (Storage c) (ThreadSafe c) (DefaultTTL c)
           (MaxTTL c).

Definition WithEvictionPolicy (p : eviction.Policy K) : Option_ := λ c,
  mkConfig (Capacity c) (Some p) (Storage c) (ThreadSafe c) (DefaultTTL c)
           (MaxTTL c).

Definition WithStorage (s : storage.memoryStorage K V) : Option_ := λ c,
  mkConfig (Capacity c) (EvictionPolicy c) (Some s) (ThreadSafe c)
           (DefaultTTL c) (MaxTTL c).

Definition WithThreadSafety (ts : bool) : Option_ := λ c,
  mkConfig (Capacity c) (EvictionPolicy c) (Storage c) ts (DefaultTTL c)
           (MaxTTL c).

Definition WithDefaultTTL (ttl : Z) : Option_ := λ c,
  mkConfig (Capacity c) (EvictionPolicy c) (Storage c) (ThreadSafe c) ttl
           (MaxTTL c).

Definition WithMaxTTL (ttl : Z) : Option_ := λ c,
  mkConfig (Capacity c) (EvictionPolicy c) (Storage c) (ThreadSafe c)
           (DefaultTTL c) ttl.

(** The period handed to [time.NewTicker]; Go's [/] on integers truncates. *)
Definition cleanupInterval (ttl : Z) : Z :=
  let i := ttl ÷ 2 in
  let i := if bool_decide (i > Minute) then Minute else i in
  if bool_decide (i < Second) then Second else i.

(** starts bg cleanup of expired items: the ticker is created with its
    period; the goroutine's ticks are the [cleanup] steps below. *)
Definition startCleanup (c : cache) : cache :=
  set_ticker (Some (cleanupInterval (defaultTTL c))) c.

(** The configuration [New] works with: the defaults, then every option
    in order. *)
Definition configure (opts : list Option_) : Config :=
  foldl (λ cfg opt, opt cfg) (mkConfig 100 None None true 0 (24 * Hour)) opts.

Definition New (opts : list Option_) : cache :=
  let config := configure opts in
  let st :=
    match Storage config with
    | Some s => s
    | None =>
      storage.NewMemoryStorageWithConfig (Capacity config) (ThreadSafe config)
    end in
  let pol :=
    match EvictionPolicy config with
    | Some p => p
    | None =>
      eviction.ofLRU
        (eviction.lru.NewLRUWithConfig (Capacity config) (ThreadSafe config))
    end in
  let st := storage.Reserve (Capacity config) st in
  let c := mkCache st pol (Capacity config) (DefaultTTL config)
                   (MaxTTL config) 0 0 0 (ThreadSafe config) None Open in
  if bool_decide (DefaultTTL config > 0) then startCleanup c else c.

(** [exists && !item.IsExpired()] on the result of a store lookup. *)
Definition fresh (now : Z) (r : option (storage.Item V)) : bool :=
  match r with
  | Some item => negb (storage.IsExpired now item)
  | None => false
  end.

(** Get - retrieves value from cache; [None] is the pair [(zero, false)]. *)
Definition Get (now : Z) (key : K) (c : cache) : option V * cache :=
  let '(r, st) := storage.Get now key (storage c) in
  let c := set_storage st c in
  match r with
  | Some item =>
    if negb (storage.IsExpired now item) then
      let c := set_policy (eviction.Access key (policy c)) c in
      (Some (storage.Value item),
       set_stats (AddInt64 (hits c) 1) (misses c) (evictions c) c)
    else (None, set_stats (hits c) (AddInt64 (misses c) 1) (evictions c) c)
  | None => (None, set_stats (hits c) (AddInt64 (misses c) 1) (evictions c) c)
  end.

(** SetWithTTL - stores with specific TTL *)
Definition SetWithTTL (now : Z) (key : K) (value : V) (ttl : Z) (c : cache)
  : bool * cache :=
  let ttl := if bool_decide (ttl > maxTTL c) then maxTTL c else ttl in
  let item := storage.SetTTL now ttl (storage.newItem value) in
  let '(existing, st) := storage.Get now key (storage c) in
  let c := set_storage st c in
  if fresh now existing then
    let c := set_storage (storage.Set_ key item (storage c)) c in
    (true, set_policy (eviction.Access key (policy c)) c)
  else
    let c :=
      if bool_decide (storage.Size (storage c) >= capacity c) then
        match eviction.Evict (policy c) with
        | (Some evictKey, p) =>
          let c := set_policy p c in
          let c := set_storage (storage.Delete evictKey (storage c)).2 c in
          set_stats (hits c) (misses c) (AddInt64 (evictions c) 1) c
        | (None, p) => set_policy p c
        end
      else c in
    let c := set_storage (storage.Set_ key item (storage c)) c in
    (true, set_policy (eviction.Access key (policy c)) c).

(** Set - stores key-value pair *)
Definition Set_ (now : Z) (key : K) (value : V) (c : cache) : bool * cache :=
  SetWithTTL now key value (defaultTTL c) c.

(** Delete - removes key from cache *)
Definition Delete (key : K) (c : cache) : bool * cache :=
  let '(ok, st) := storage.Delete key (storage c) in
  if ok
  then (true, set_policy (eviction.Remove key (policy c)) (set_storage st c))
  else (false, set_storage st c).

(** Clear - removes all items *)
Definition Clear (c : cache) : cache :=
  let c := set_storage (storage.Clear (storage c)) c in
  let c := set_policy (eviction.Clear (policy c)) c in
  set_stats 0 0 0 c.

(** current item count *)
Definition Size (c : cache) : Z := storage.Size (storage c).

(** all keys in cache *)
Definition Keys (c : cache) : list K := storage.Keys (storage c).

(** checks if key exists *)
Definition Contains (now : Z) (key : K) (c : cache) : bool * cache :=
  let '(r, st) := storage.Get now key (storage c) in
  (fresh now r, set_storage st c).

(** helper for batch ops (assumes lock held); [item] is a zero item taken
    from the pool.  The default TTL is applied as it is. *)
Definition setBatchItem (now : Z) (key : K) (value : V) (c : cache)
  : bool * cache :=
  let item := storage.SetTTL now (defaultTTL c) (storage.newItem value) in
  let '(existing, st) := storage.Get now key (storage c) in
  let c := set_storage st c in
  if fresh now existing then
    let c := set_storage (storage.Set_ key item (storage c)) c in
    (true, set_policy (eviction.Access key (policy c)) c)
  else
    let c :=
      if bool_decide (storage.Size (storage c) >= capacity c) then
        match eviction.Evict (policy c) with
        | (Some evictKey, p) =>
          let c := set_policy p c in
          let c := set_storage (storage.Delete evictKey (storage c)).2 c in
          set_stats (hits c) (misses c) (AddInt64 (evictions c) 1) c
        | (None, p) => set_policy p c
        end
      else c in
    let c := set_storage (storage.Set_ key item (storage c)) c in
    (true, set_policy (eviction.Access key (policy c)) c).

Definition setBatchLoop (now : Z) (acc : Z * cache) (kv : K * V) : Z * cache :=
  let '(ok, c) := setBatchItem now kv.1 kv.2 acc.2 in
  (if ok then acc.1 + 1 else acc.1, c).

(** stores multiple items.  [items] lists the pairs of the input map in
    the order in which the [range] loop happens to visit them. *)
Definition SetBatch (now : Z) (items : list (K * V)) (c : cache) : Z * cache :=
  foldl (setBatchLoop now) (0, c) items.

Definition getBatchLoop (now : Z) (acc : gmap K V * cache) (key : K)
  : gmap K V * cache :=
  let '(r, st) := storage.Get now key (storage acc.2) in
  let c := set_storage st acc.2 in
  match r with
  | Some item =>
    if negb (storage.IsExpired now item) then
      let c := set_policy (eviction.Access key (policy c)) c in
      (<[key := storage.Value item]> acc.1,
       set_stats (AddInt64 (hits c) 1) (misses c) (evictions c) c)
    else
      (acc.1, set_stats (hits c) (AddInt64 (misses c) 1) (evictions c) c)
  | None =>
    (acc.1, set_stats (hits c) (AddInt64 (misses c) 1) (evictions c) c)
  end.

(** retrieves multiple values *)
Definition GetBatch (now : Z) (keys : list K) (c : cache) : gmap K V * cache :=
  foldl (getBatchLoop now) (∅, c) keys.

Definition deleteBatchLoop (acc : Z * cache) (key : K) : Z * cache :=
  let '(ok, st) := storage.Delete key (storage acc.2) in
  let c := set_storage st acc.2 in
  if ok then (acc.1 + 1, set_policy (eviction.Remove key (policy c)) c)
  else (acc.1, c).

(** removes multiple keys *)
Definition DeleteBatch (keys : list K) (c : cache) : Z * cache :=
  foldl deleteBatchLoop (0, c) keys.

(** Stats - cache metrics.  The float64 field [HitRatio], derived from
    [Hits] and [Misses], is left out. *)
Record Stats := mkStats {
  Hits : Z;
  Misses : Z;
  Evictions : Z;
  StatsSize : Z;
  StatsCapacity : Z
}.

Definition GetStats (c : cache) : Stats :=
  mkStats (hits c) (misses c) (evictions c) (storage.Size (storage c))
          (capacity c).

(** removes expired items: one tick of the background goroutine *)
Definition cleanup (now : Z) (c : cache) : cache :=
  set_storage (storage.CleanupExpired now (storage c)).2 c.

(** stops bg cleanup; [None] is the panic of closing a closed channel. *)
Definition Close (c : cache) : option cache :=
  match cleanupTicker c with
  | Some _ =>
    match close (stopCleanup c) with
    | Some ch => Some (set_stop ch c)
    | None => None
    end
  | None => Some c
  end.

(** *** Histories of calls *)

(** The methods of the [Cache] interface. *)
Inductive Op :=
| OpGet (key : K)
| OpSet (key : K) (value : V)
| OpSetWithTTL (key : K) (value : V) (ttl : Z)
| OpDelete (key : K)
| OpClear
| OpSize
| OpKeys
| OpStats
| OpContains (key : K)
| OpSetBatch (items : list (K * V))
| OpGetBatch (keys : list K)
| OpDeleteBatch (keys : list K).

(** The cache after the call [o] made at instant [now] has returned. *)
Definition call (now : Z) (o : Op) (c : cache) : cache :=
  match o with
  | OpGet key => (Get now key c).2
  | OpSet key value => (Set_ now key value c).2
  | OpSetWithTTL key value ttl => (SetWithTTL now key value ttl c).2
  | OpDelete key => (Delete key c).2
  | OpClear => Clear c
  | OpSize | OpKeys | OpStats => c
  | OpContains key => (Contains now key c).2
  | OpSetBatch items => (SetBatch now items c).2
  | OpGetBatch keys => (GetBatch now keys c).2
  | OpDeleteBatch keys => (DeleteBatch keys c).2
  end.

(** What happens to a cache: a call from its user, or a tick of the
    sweeper. *)
Inductive Event :=
| Call (o : Op)
| Tick.

Definition step (c : cache) (te : Z * Event) : cache :=
  match te.2 with
  | Call o => call te.1 o c
  | Tick => cleanup te.1 c
  end.

(** A history is a list of events, each with the instant it happens at. *)
Definition run (h : list (Z * Event)) (c : cache) : cache := foldl step c h.

Definition calls (h : list (Z * Op)) : list (Z * Event) :=
  (λ to, (to.1, Call to.2)) <$> h.
End cache.
Arguments cache K {_ _} V.
Arguments Config K {_ _} V.
Arguments Option_ K {_ _} V.
Arguments Op : clear implicits.
Arguments Event : clear implicits.
End cache.

(** ** The demo program's custom policy *)

Module demo.
Section demo.
Context {K : Type} `{Countable K}.
Local Open Scope Z_scope.

(** CustomRandomPolicy randomly evicts keys: a set of keys ([items], a map
    to empty structs) and the slice [keys] of the same keys. *)
Record CustomRandomPolicy := mk {
  items : gset K;
  keys : list K;
  threadSafe : bool
}.

Definition upd (its : gset K) (ks : list K) (p : CustomRandomPolicy)
  : CustomRandomPolicy :=
  {| items := its; keys := ks; threadSafe := threadSafe p |}.

Definition NewCustomRandomPolicy (capacity : Z) (ts : bool)
  : CustomRandomPolicy :=
  {| items := ∅; keys := []; threadSafe := ts |}.

Definition Access (key : K) (p : CustomRandomPolicy) : CustomRandomPolicy :=
  if decide (key ∈ items p) then p
  else upd ({[key]} ∪ items p) (keys p ++ [key]) p.

(** demo: pick middle.  The index [len(p.keys) / 2] is within the slice
    whenever the slice is not empty. *)
Definition Evict (p : CustomRandomPolicy) : option K * CustomRandomPolicy :=
  if bool_decide (length (keys p) = 0%nat) then (None, p)
  else
    let index := (length (keys p) / 2)%nat in
    match keys p !! index with
    | Some key =>
      (Some key,
       upd (items p ∖ {[key]}) (take index (keys p) ++ drop (S index) (keys p))
           p)
    | None => (None, p)
    end.

(** The loop deletes the first element equal to [key] and stops. *)
Definition Remove (key : K) (p : CustomRandomPolicy) : CustomRandomPolicy :=
  if decide (key ∈ items p)
  then upd (items p ∖ {[key]}) (eviction.remove_node key (keys p)) p
  else p.

Definition Clear (p : CustomRandomPolicy) : CustomRandomPolicy := upd ∅ [] p.

Definition Size (p : CustomRandomPolicy) : Z := Z.of_nat (length (keys p)).

(** The policy as a value of the interface. *)
Definition ofCustom (p : CustomRandomPolicy) : eviction.Policy K :=
  eviction.mkPolicy CustomRandomPolicy p Access Evict Remove Clear Size.
End demo.
Arguments CustomRandomPolicy K {_ _}.
End demo.

(** * Properties *)

(** ** Vocabulary of the statements *)

Section vocabulary.
Context {K : Type} `{Countable K} {V : Type}.
Local Open Scope Z_scope.

(** The value a lookup of [key] at instant [now] can see: that of an entry
    which is present and not expired. *)
Definition liveValue (now : Z) (c : cache.cache K V) (key : K) : option V :=
  match storage.data (cache.storage c) !! key with
  | Some item =>
    if storage.IsExpired now item then None else Some (storage.Value item)
  | None => None
  end.

Definition isLive (now : Z) (c : cache.cache K V) (key : K) : bool :=
  match liveValue now c key with
  | Some _ => true
  | None => false
  end.



(** The keys the store holds. *)
Definition storeKeys (c : cache.cache K V) : gset K :=
  dom (storage.data (cache.storage c)).

(** The fields of a cache that are fixed when it is built, and the state
    of its sweeper. *)
Definition sameSetup (c c' : cache.cache K V) : Prop :=
  cache.capacity c' = cache.capacity c ∧
  cache.defaultTTL c' = cache.defaultTTL c ∧
  cache.maxTTL c' = cache.maxTTL c ∧
  cache.threadSafe c' = cache.threadSafe c ∧
  cache.cleanupTicker c' = cache.cleanupTicker c ∧
  cache.stopCleanup c' = cache.stopCleanup c.

(** The three statistics counters. *)
Definition counters (c : cache.cache K V) : Z * Z * Z :=
  (cache.hits c, cache.misses c, cache.evictions c).

(** [R p S] reads "policy [p] tracks exactly the keys [S]".  A relation
    [R] is a contract of the interface when every method acts on the
    tracked set as its comment says. *)
Record contract (R : eviction.Policy K → gset K → Prop) : Prop := {
  contract_access p S key :
    R p S → R (eviction.Access key p) ({[key]} ∪ S);
  contract_evict p S :
    R p S →
    match (eviction.Evict p).1 with
    | Some key => key ∈ S ∧ R (eviction.Evict p).2 (S ∖ {[key]})
    | None => S = ∅ ∧ R (eviction.Evict p).2 ∅
    end;
  contract_remove p S key :
    R p S → R (eviction.Remove key p) (S ∖ {[key]});
  contract_clear p S : R p S → R (eviction.Clear p) ∅;
  contract_size p S : R p S → eviction.Size p = Z.of_nat (size S)
}.

(** The order list and the key map of a built-in policy agree. *)
Definition linked (items : gset K) (order : list K) : Prop :=
  NoDup order ∧ ∀ key, key ∈ order ↔ key ∈ items.

Definition tracksLRU (p : eviction.Policy K) (S : gset K) : Prop :=
  ∃ s, p = eviction.ofLRU s ∧ eviction.lru.items s = S ∧
       linked (eviction.lru.items s) (eviction.lru.order s).

Definition tracksFIFO (p : eviction.Policy K) (S : gset K) : Prop :=
  ∃ s, p = eviction.ofFIFO s ∧ eviction.fifo.items s = S ∧
       linked (eviction.fifo.items s) (eviction.fifo.order s).

Definition tracksLIFO (p : eviction.Policy K) (S : gset K) : Prop :=
  ∃ s, p = eviction.ofLIFO s ∧ eviction.lifo.items s = S ∧
       linked (eviction.lifo.items s) (eviction.lifo.order s).

(** The TTL an entry written by the call would carry: [Set] and
    [SetWithTTL] clamp to [maxTTL], [SetBatch] does not. *)
Definition clamp (c : cache.cache K V) (ttl : Z) : Z :=
  if bool_decide (ttl > cache.maxTTL c) then cache.maxTTL c else ttl.

Definition writesNoTTL (c : cache.cache K V) (e : Z * cache.Event K V) : Prop :=
  match e.2 with
  | cache.Call (cache.OpSet _ _) => clamp c (cache.defaultTTL c) = 0
  | cache.Call (cache.OpSetWithTTL _ _ ttl) => clamp c ttl = 0
  | cache.Call (cache.OpSetBatch items) =>
    items = [] ∨ cache.defaultTTL c = 0
  | _ => True
  end.

(** The store's map once a lookup of [key] at [now] has purged the entry it
    found expired. *)
Definition purged (now : Z) (key : K) (d : gmap K (storage.Item V))
  : gmap K (storage.Item V) :=
  match d !! key with
  | Some item => if storage.IsExpired now item then delete key d else d
  | None => d
  end.

Definition with_map (d : gmap K (storage.Item V)) (c : cache.cache K V)
  : cache.cache K V :=
  cache.set_storage (storage.with_data d (cache.storage c)) c.

(** The write path shared by [SetWithTTL] and [setBatchItem], with the calls
    into the store replaced by what they do to its map. *)
Definition written (now : Z) (key : K) (item : storage.Item V)
           (c : cache.cache K V) : cache.cache K V :=
  let d := purged now key (storage.data (cache.storage c)) in
  if cache.fresh now (storage.data (cache.storage c) !! key) then
    cache.set_policy (eviction.Access key (cache.policy c))
                     (with_map (<[key := item]> d) c)
  else if bool_decide (Z.of_nat (size d) >= cache.capacity c) then
    match (eviction.Evict (cache.policy c)).1 with
    | Some victim =>
      cache.set_policy
        (eviction.Access key (eviction.Evict (cache.policy c)).2)
        (cache.set_stats (cache.hits c) (cache.misses c)
           (cache.AddInt64 (cache.evictions c) 1)
           (with_map (<[key := item]> (delete victim d)) c))
    | None =>
      cache.set_policy
        (eviction.Access key (eviction.Evict (cache.policy c)).2)
        (with_map (<[key := item]> d) c)
    end
  else
    cache.set_policy (eviction.Access key (cache.policy c))
                     (with_map (<[key := item]> d) c).


(** An entry without TTL, as [SetWithTTL] builds it for TTL 0. *)
Definition plain (value : V) : storage.Item V := storage.mkItem value 0 false.

(** A thread-safe cache without default TTL, with the default maximal TTL,
    the built-in store and the LRU policy. *)
Definition lruCache (d : gmap K (storage.Item V)) (items : gset K)
           (order : list K) (cap h m e : Z) : cache.cache K V :=
  cache.mkCache (storage.mkStorage d true)
                (eviction.ofLRU (eviction.lru.mk cap items order true))
                cap 0 (24 * cache.Hour) h m e true None cache.Open.

Definition noTTL (c : cache.cache K V) : Prop :=
  ∀ key item, storage.data (cache.storage c) !! key = Some item →
              storage.HasTTL item = false.

(** The store holds no more entries than the capacity, which is positive. *)
Definition bounded (c : cache.cache K V) : Prop :=
  0 < cache.capacity c ∧ cache.Size c ≤ cache.capacity c.

(** Every key of the store is tracked by the policy. *)
Definition coherent (R : eviction.Policy K → gset K → Prop)
           (c : cache.cache K V) : Prop :=
  ∃ S, R (cache.policy c) S ∧ storeKeys c ⊆ S.

(** The policy tracks the keys of the store and no other, and no entry of
    the store carries a TTL. *)
Definition exact (R : eviction.Policy K → gset K → Prop)
           (c : cache.cache K V) : Prop :=
  noTTL c ∧ R (cache.policy c) (storeKeys c).
End vocabulary.

(** ** The store *)

Section storage_facts.
Context {K : Type} `{Countable K} {V : Type}.
Local Open Scope Z_scope.
Implicit Types (s : storage.memoryStorage K V) (key : K) (now : Z).

(** Both paths of the lookup do the same thing to the map. *)
Lemma storage_Get_unfold now key s :
  storage.Get now key s =
  match storage.data s !! key with
  | Some item =>
    if storage.IsExpired now item
    then (None, storage.with_data (delete key (storage.data s)) s)
    else (Some item, s)
  | None => (None, s)
  end.
Proof.
  unfold storage.Get.
  destruct (storage.data s !! key) as [item|] eqn:Hk; [|done].
  destruct (storage.IsExpired now item) eqn:Hx; [|done].
  by destruct (storage.threadSafe s).
Qed.

Lemma storage_Get_fresh now key s :
  cache.fresh now (storage.Get now key s).1 =
  cache.fresh now (storage.data s !! key).
Proof.
  rewrite storage_Get_unfold.
  destruct (storage.data s !! key) as [item|] eqn:Hk; [|done].
  destruct (storage.IsExpired now item) eqn:Hx; simpl; by rewrite Hx.
Qed.

Lemma storage_Get_with_data now key s :
  (storage.Get now key s).2 =
  storage.with_data (storage.data (storage.Get now key s).2) s.
Proof.
  rewrite storage_Get_unfold.
  destruct (storage.data s !! key) as [item|]; [|by destruct s].
  destruct (storage.IsExpired now item); [done|by destruct s].
Qed.

Lemma storage_Delete_data key s :
  storage.data (storage.Delete key s).2 = delete key (storage.data s).
Proof.
  unfold storage.Delete.
  destruct (storage.data s !! key) eqn:Hk; simpl; [done|].
  by rewrite delete_id.
Qed.
End storage_facts.

(** ** The coordinator: what no call changes *)

(** Reduction of the record projections and setters of the coordinator,
    leaving the calls into the store and the policy alone. *)
Ltac cache_simpl :=
  cbn [cache.storage cache.policy cache.capacity cache.defaultTTL
       cache.maxTTL cache.hits cache.misses cache.evictions cache.threadSafe
       cache.cleanupTicker cache.stopCleanup cache.set_storage
       cache.set_policy cache.set_stats cache.set_ticker cache.set_stop
       fst snd] in *.

Ltac case_evict :=
  match goal with
  | |- context [eviction.Evict ?p] =>
    let victim := fresh "victim" in
    let p' := fresh "p'" in
    let Hev := fresh "Hev" in
    destruct (eviction.Evict p) as [[victim|] p'] eqn:Hev; cache_simpl
  end.

Section setup_facts.
Context {K : Type} `{Countable K} {V : Type}.
Local Open Scope Z_scope.
Implicit Types (c : cache.cache K V) (key : K) (now : Z).

Lemma sameSetup_refl c : sameSetup c c.
Proof. by repeat split. Qed.

Lemma sameSetup_trans c1 c2 c3 :
  sameSetup c1 c2 → sameSetup c2 c3 → sameSetup c1 c3.
Proof.
  unfold sameSetup. intros (?&?&?&?&?&?) (?&?&?&?&?&?).
  repeat split; congruence.
Qed.

Lemma sameSetup_Get now key c : sameSetup c (cache.Get now key c).2.
Proof.
  unfold cache.Get. destruct (storage.Get now key _) as [[item|] st]; simpl.
  - destruct (storage.IsExpired now item); by repeat split.
  - by repeat split.
Qed.

Lemma sameSetup_SetWithTTL now key value ttl c :
  sameSetup c (cache.SetWithTTL now key value ttl c).2.
Proof.
  unfold cache.SetWithTTL, sameSetup.
  destruct (storage.Get now key _) as [r st]; cache_simpl.
  destruct (cache.fresh now r); cache_simpl; [done|].
  case_bool_decide; cache_simpl; [|done].
  by case_evict.
Qed.

Lemma sameSetup_setBatchItem now key value c :
  sameSetup c (cache.setBatchItem now key value c).2.
Proof.
  unfold cache.setBatchItem, sameSetup.
  destruct (storage.Get now key _) as [r st]; cache_simpl.
  destruct (cache.fresh now r); cache_simpl; [done|].
  case_bool_decide; cache_simpl; [|done].
  by case_evict.
Qed.

Lemma sameSetup_Delete key c : sameSetup c (cache.Delete key c).2.
Proof.
  unfold cache.Delete. destruct (storage.Delete key _) as [[] st];
    by repeat split.
Qed.

Lemma sameSetup_Contains now key c : sameSetup c (cache.Contains now key c).2.
Proof.
  unfold cache.Contains. destruct (storage.Get now key _) as [r st].
  by repeat split.
Qed.

Lemma sameSetup_SetBatch now items c :
  sameSetup c (cache.SetBatch now items c).2.
Proof.
  unfold cache.SetBatch. generalize 0 as n. revert c.
  induction items as [|[key value] items IH]; intros c n; simpl.
  - apply sameSetup_refl.
  - unfold cache.setBatchLoop at 2; simpl.
    pose proof (sameSetup_setBatchItem now key value c) as Hs.
    destruct (cache.setBatchItem now key value c) as [ok c']; simpl in *.
    eapply sameSetup_trans; [exact Hs|apply IH].
Qed.

Lemma sameSetup_GetBatch now keys c :
  sameSetup c (cache.GetBatch now keys c).2.
Proof.
  unfold cache.GetBatch. generalize (∅ : gmap K V) as res. revert c.
  induction keys as [|key keys IH]; intros c res; simpl.
  - apply sameSetup_refl.
  - unfold cache.getBatchLoop at 2; simpl.
    destruct (storage.Get now key _) as [[item|] st]; simpl.
    + destruct (storage.IsExpired now item); simpl;
        (eapply sameSetup_trans; [|apply IH]); by repeat split.
    + (eapply sameSetup_trans; [|apply IH]); by repeat split.
Qed.

Lemma sameSetup_DeleteBatch keys c :
  sameSetup c (cache.DeleteBatch keys c).2.
Proof.
  unfold cache.DeleteBatch. generalize 0 as n. revert c.
  induction keys as [|key keys IH]; intros c n; simpl.
  - apply sameSetup_refl.
  - unfold cache.deleteBatchLoop at 2; simpl.
    destruct (storage.Delete key _) as [[] st]; simpl;
      (eapply sameSetup_trans; [|apply IH]); by repeat split.
Qed.

Lemma sameSetup_call now o c : sameSetup c (cache.call now o c).
Proof.
  destruct o; simpl;
    auto using sameSetup_refl, sameSetup_Get, sameSetup_SetWithTTL,
      sameSetup_Delete, sameSetup_Contains, sameSetup_SetBatch,
      sameSetup_GetBatch, sameSetup_DeleteBatch.
  - apply sameSetup_SetWithTTL.
  - by repeat split.
Qed.

Lemma sameSetup_step c e : sameSetup c (cache.step c e).
Proof.
  destruct e as [now [o|]]; unfold cache.step; simpl.
  - apply sameSetup_call.
  - by repeat split.
Qed.

Lemma sameSetup_run h c : sameSetup c (cache.run h c).
Proof.
  revert c. induction h as [|e h IH]; intros c; simpl.
  - apply sameSetup_refl.
  - eapply sameSetup_trans; [apply sameSetup_step|apply IH].
Qed.


Lemma New_stopCleanup (opts : list (cache.Option_ K V)) :
  cache.stopCleanup (cache.New opts) = cache.Open.
Proof. unfold cache.New. by case_bool_decide. Qed.

Lemma New_cleanupTicker (opts : list (cache.Option_ K V)) :
  cache.cleanupTicker (cache.New opts) =
  if bool_decide (cache.DefaultTTL (cache.configure opts) > 0)
  then Some (cache.cleanupInterval (cache.DefaultTTL (cache.configure opts)))
  else None.
Proof. unfold cache.New. by case_bool_decide. Qed.

Lemma cleanupInterval_max_min ttl :
  0 < ttl →
  cache.cleanupInterval ttl =
  Z.max cache.Second (Z.min cache.Minute (ttl / 2)).
Proof.
  intros Hpos. unfold cache.cleanupInterval, cache.Minute, cache.Second.
  rewrite Z.quot_div_nonneg by lia.
  repeat case_bool_decide; lia.
Qed.
End setup_facts.

(** ** The sweeper and [Close] *)

Section sweeper.
Context {K : Type} `{Countable K} {V : Type}.
Local Open Scope Z_scope.
Implicit Types (c : cache.cache K V) (opts : list (cache.Option_ K V)).

(** C7.  When the configured default TTL is positive, [New] starts the
    sweeper with the period max(1s, min(1min, default_ttl/2)), the
    division being that of integers; when the default TTL is 0, [New]
    starts no sweeper. *)
Theorem sweeper_period opts :
  let ttl := cache.DefaultTTL (cache.configure opts) in
  (0 < ttl →
   cache.cleanupTicker (cache.New opts) =
   Some (Z.max cache.Second (Z.min cache.Minute (ttl / 2)))) ∧
  (ttl = 0 → cache.cleanupTicker (cache.New opts) = None).
Proof.
  intros ttl. rewrite New_cleanupTicker. fold ttl. split; intros Httl.
  - rewrite bool_decide_eq_true_2 by lia.
    by rewrite cleanupInterval_max_min.
  - rewrite bool_decide_eq_false_2 by lia. done.
Qed.

Lemma Close_without_ticker c :
  cache.cleanupTicker c = None → cache.Close c = Some c.
Proof. unfold cache.Close. by intros ->. Qed.

Lemma Close_open c period :
  cache.cleanupTicker c = Some period → cache.stopCleanup c = cache.Open →
  cache.Close c = Some (cache.set_stop cache.Closed c).
Proof. unfold cache.Close. by intros -> ->. Qed.

Lemma Close_closed c period :
  cache.cleanupTicker c = Some period → cache.stopCleanup c = cache.Closed →
  cache.Close c = None.
Proof. unfold cache.Close. by intros -> ->. Qed.

(** C10.  On a cache built with default TTL 0, whatever was done with it
    since, there is no ticker, [Close] returns without changing anything
    and the stop channel stays open.  On a cache built with a positive
    default TTL the first [Close] closes the stop channel and any later
    [Close] panics, whatever was done with the cache in between. *)
Theorem close_twice_panics opts :
  let ttl := cache.DefaultTTL (cache.configure opts) in
  (ttl = 0 →
   ∀ h, let c := cache.run h (cache.New opts) in
        cache.cleanupTicker c = None ∧ cache.Close c = Some c ∧
        cache.stopCleanup c = cache.Open) ∧
  (0 < ttl →
   ∀ h1 h2, ∃ c', cache.Close (cache.run h1 (cache.New opts)) = Some c' ∧
                  cache.stopCleanup c' = cache.Closed ∧
                  cache.Close (cache.run h2 c') = None).
Proof.
  intros ttl. split; intros Httl.
  - intros h c.
    destruct (sameSetup_run h (cache.New opts)) as (_&_&_&_&Ht&Hs).
    fold c in Ht, Hs.
    rewrite New_cleanupTicker in Ht. rewrite New_stopCleanup in Hs.
    fold ttl in Ht. rewrite bool_decide_eq_false_2 in Ht by lia.
    auto using Close_without_ticker.
  - intros h1 h2.
    destruct (sameSetup_run h1 (cache.New opts)) as (_&_&_&_&Ht&Hs).
    rewrite New_cleanupTicker in Ht. rewrite New_stopCleanup in Hs.
    fold ttl in Ht. rewrite bool_decide_eq_true_2 in Ht by lia.
    eexists. split; [by eapply Close_open|]. split; [done|].
    destruct (sameSetup_run h2
      (cache.set_stop cache.Closed (cache.run h1 (cache.New opts))))
      as (_&_&_&_&Ht'&Hs').
    eapply Close_closed.
    + rewrite Ht'. exact Ht.
    + by rewrite Hs'.
Qed.
End sweeper.

Lemma sweeper_period_witness :
  cache.cleanupTicker
    (cache.New [cache.WithDefaultTTL (K:=string) (V:=string) (10 * cache.Second)%Z])
  = Some (5 * cache.Second)%Z ∧
  cache.cleanupTicker (cache.New (K:=string) (V:=string) []) = None.
Proof.
  split.
  - apply (proj1 (sweeper_period
             [cache.WithDefaultTTL (K:=string) (V:=string) (10 * cache.Second)%Z])).
    vm_compute. reflexivity.
  - apply (proj2 (sweeper_period (K:=string) (V:=string) [])).
    reflexivity.
Defined.

Lemma close_twice_panics_witness :
  cache.Close (cache.New (K:=string) (V:=string) []) =
    Some (cache.New (K:=string) (V:=string) []) ∧
  ∃ c', cache.Close
          (cache.New [cache.WithDefaultTTL (K:=string) (V:=string) cache.Second])
        = Some c' ∧
        cache.stopCleanup c' = cache.Closed ∧ cache.Close c' = None.
Proof.
  split.
  - apply (proj1 (close_twice_panics (K:=string) (V:=string) [])
             eq_refl []).
  - apply (proj2 (close_twice_panics
             [cache.WithDefaultTTL (K:=string) (V:=string) cache.Second])
             eq_refl [] []).
Defined.

(** ** Lookups: [Get], [Contains], [Keys] *)

Section lookups.
Context {K : Type} `{Countable K} {V : Type}.
Local Open Scope Z_scope.
Implicit Types (c : cache.cache K V) (key : K) (now : Z).

Lemma set_storage_same c : cache.set_storage (cache.storage c) c = c.
Proof. by destruct c. Qed.

Lemma with_data_same (s : storage.memoryStorage K V) :
  storage.with_data (storage.data s) s = s.
Proof. by destruct s. Qed.

Lemma Keys_elem c key :
  key ∈ cache.Keys c ↔ is_Some (storage.data (cache.storage c) !! key).
Proof.
  unfold cache.Keys, storage.Keys. rewrite list_elem_of_fmap. split.
  - intros ([k item] & -> & Hin). apply elem_of_map_to_list in Hin. eauto.
  - intros [item Hk]. exists (key, item). split; [done|].
    by apply elem_of_map_to_list.
Qed.

Lemma Get_expired now key c item :
  storage.data (cache.storage c) !! key = Some item →
  storage.IsExpired now item = true →
  cache.Get now key c =
  (None,
   cache.set_stats (cache.hits c) (cache.AddInt64 (cache.misses c) 1)
     (cache.evictions c)
     (cache.set_storage
        (storage.with_data (delete key (storage.data (cache.storage c)))
                           (cache.storage c)) c)).
Proof.
  intros Hk Hx. unfold cache.Get. rewrite storage_Get_unfold, Hk, Hx. done.
Qed.

Lemma Get_absent now key c :
  storage.data (cache.storage c) !! key = None →
  cache.Get now key c =
  (None,
   cache.set_stats (cache.hits c) (cache.AddInt64 (cache.misses c) 1)
     (cache.evictions c) (cache.set_storage (cache.storage c) c)).
Proof.
  intros Hk. unfold cache.Get. rewrite storage_Get_unfold, Hk. done.
Qed.

Lemma Get_live now key c item :
  storage.data (cache.storage c) !! key = Some item →
  storage.IsExpired now item = false →
  cache.Get now key c =
  (Some (storage.Value item),
   cache.set_stats (cache.AddInt64 (cache.hits c) 1) (cache.misses c)
     (cache.evictions c)
     (cache.set_policy (eviction.Access key (cache.policy c))
        (cache.set_storage (cache.storage c) c))).
Proof.
  intros Hk Hx. unfold cache.Get. rewrite storage_Get_unfold, Hk, Hx.
  cbn beta iota zeta. rewrite Hx. done.
Qed.

Lemma Contains_unfold now key c :
  cache.Contains now key c =
  match storage.data (cache.storage c) !! key with
  | Some item =>
    if storage.IsExpired now item
    then (false,
          cache.set_storage
            (storage.with_data (delete key (storage.data (cache.storage c)))
                               (cache.storage c)) c)
    else (true, c)
  | None => (false, c)
  end.
Proof.
  unfold cache.Contains. rewrite storage_Get_unfold.
  destruct (storage.data (cache.storage c) !! key) as [item|].
  - destruct (storage.IsExpired now item) eqn:Hx; simpl; [done|].
    by rewrite Hx, set_storage_same.
  - simpl. by rewrite set_storage_same.
Qed.

(** C8.  [Keys] lists every key of the store's map, whatever the expiry of
    its entry.  So a key whose entry is expired at [now] and still in the map
    is among [Keys] although [Contains] and [Get], called at [now], both
    report it absent. *)
Theorem keys_report_expired c :
  (∀ key, key ∈ cache.Keys c ↔
          is_Some (storage.data (cache.storage c) !! key)) ∧
  (∀ now key item,
     storage.data (cache.storage c) !! key = Some item →
     storage.IsExpired now item = true →
     key ∈ cache.Keys c ∧
     (cache.Contains now key c).1 = false ∧
     (cache.Get now key c).1 = None).
Proof.
  split; [apply Keys_elem|].
  intros now key item Hk Hx. split; [apply Keys_elem; eauto|].
  rewrite Contains_unfold, Hk, Hx. erewrite Get_expired by done. done.
Qed.

(** C9.  [Contains] on a key whose entry is in the map but expired answers
    false and deletes the entry from the store, whose size goes down by one;
    the policy is left as it was, still tracking the key, and so are the
    three counters.  On a key whose entry is live, and on a key that is not
    in the map, [Contains] leaves the cache exactly as it was. *)
Theorem contains_purges_expired now key c :
  (∀ item,
     storage.data (cache.storage c) !! key = Some item →
     storage.IsExpired now item = true →
     let c' := (cache.Contains now key c).2 in
     (cache.Contains now key c).1 = false ∧
     storage.data (cache.storage c') =
       delete key (storage.data (cache.storage c)) ∧
     cache.Size c' = cache.Size c - 1 ∧
     cache.policy c' = cache.policy c ∧
     counters c' = counters c) ∧
  (∀ item,
     storage.data (cache.storage c) !! key = Some item →
     storage.IsExpired now item = false →
     cache.Contains now key c = (true, c)) ∧
  (storage.data (cache.storage c) !! key = None →
   cache.Contains now key c = (false, c)).
Proof.
  split; [|split].
  - intros item Hk Hx c'. subst c'. rewrite Contains_unfold, Hk, Hx.
    repeat split. unfold cache.Size, storage.Size. simpl.
    rewrite map_size_delete, Hk. simpl.
    assert (size (storage.data (cache.storage c)) ≠ 0%nat) as Hne.
    { intros Hz. apply map_size_empty_inv in Hz. rewrite Hz in Hk.
      by rewrite lookup_empty in Hk. }
    lia.
  - intros item Hk Hx. by rewrite Contains_unfold, Hk, Hx.
  - intros Hk. by rewrite Contains_unfold, Hk.
Qed.
End lookups.

(** A cache holding one entry, written at instant 0 with a TTL of 1ns. *)
Definition oneShortLived : cache.cache string string :=
  (cache.SetWithTTL 0 "k" "v" 1 (cache.New [])).2.

Lemma keys_report_expired_witness :
  "k" ∈ cache.Keys oneShortLived ∧
  (cache.Contains 5 "k" oneShortLived).1 = false ∧
  (cache.Get 5 "k" oneShortLived).1 = None.
Proof.
  apply (proj2 (keys_report_expired oneShortLived) 5%Z "k"
               (storage.mkItem "v" 1 true)).
  - vm_compute. reflexivity.
  - vm_compute. reflexivity.
Defined.

Lemma contains_purges_expired_witness :
  ((cache.Contains 5 "k" oneShortLived).1 = false ∧
   storage.data (cache.storage (cache.Contains 5 "k" oneShortLived).2) =
     delete "k" (storage.data (cache.storage oneShortLived)) ∧
   cache.Size (cache.Contains 5 "k" oneShortLived).2 =
     (cache.Size oneShortLived - 1)%Z ∧
   cache.policy (cache.Contains 5 "k" oneShortLived).2 =
     cache.policy oneShortLived ∧
   counters (cache.Contains 5 "k" oneShortLived).2 = counters oneShortLived) ∧
  cache.Contains 0 "k" oneShortLived = (true, oneShortLived) ∧
  cache.Contains 5 "z" oneShortLived = (false, oneShortLived).
Proof.
  split; [|split].
  - apply (proj1 (contains_purges_expired 5%Z "k" oneShortLived)
                 (storage.mkItem "v" 1 true)).
    + vm_compute. reflexivity.
    + vm_compute. reflexivity.
  - apply (proj1 (proj2 (contains_purges_expired 0%Z "k" oneShortLived))
                 (storage.mkItem "v" 1 true)).
    + vm_compute. reflexivity.
    + vm_compute. reflexivity.
  - apply (proj2 (proj2 (contains_purges_expired 5%Z "z" oneShortLived))).
    vm_compute. reflexivity.
Defined.

(** ** [GetBatch] *)

Section get_batch.
Context {K : Type} `{Countable K} {V : Type}.
Local Open Scope Z_scope.
Implicit Types (c : cache.cache K V) (key : K) (now : Z).







End get_batch.

(** ** Writes: [SetWithTTL], [Set], [setBatchItem] *)

Section writes.
Context {K : Type} `{Countable K} {V : Type}.
Local Open Scope Z_scope.
Implicit Types (c : cache.cache K V) (key : K) (now : Z).

Lemma storage_Get_data now key (s : storage.memoryStorage K V) :
  (storage.Get now key s).2 =
  storage.with_data (purged now key (storage.data s)) s.
Proof.
  rewrite storage_Get_unfold. unfold purged.
  destruct (storage.data s !! key) as [item|]; [|by destruct s].
  destruct (storage.IsExpired now item); [done|by destruct s].
Qed.

Lemma storage_Delete_snd key (s : storage.memoryStorage K V) :
  (storage.Delete key s).2 = storage.with_data (delete key (storage.data s)) s.
Proof.
  unfold storage.Delete.
  destruct (storage.data s !! key) eqn:Hk; simpl; [done|].
  rewrite delete_id by done. by destruct s.
Qed.

Lemma SetWithTTL_written now key value ttl c :
  cache.SetWithTTL now key value ttl c =
  (true,
   written now key (storage.SetTTL now (clamp c ttl) (storage.newItem value)) c).
Proof.
  unfold cache.SetWithTTL, written, with_map, clamp.
  rewrite <- storage_Get_fresh.
  destruct (storage.Get now key (cache.storage c)) as [r st] eqn:Hget.
  assert (st = (storage.Get now key (cache.storage c)).2) as Hst
    by by rewrite Hget.
  rewrite storage_Get_data in Hst. cache_simpl.
  destruct (cache.fresh now r); cache_simpl; [by subst st|].
  assert (storage.Size st =
          Z.of_nat (size (purged now key (storage.data (cache.storage c)))))
    as -> by by subst st.
  case_bool_decide; cache_simpl; [|by subst st].
  destruct (eviction.Evict (cache.policy c)) as [[victim|] p']; cache_simpl.
  - rewrite storage_Delete_snd. by subst st.
  - by subst st.
Qed.

Lemma setBatchItem_written now key value c :
  cache.setBatchItem now key value c =
  (true,
   written now key
           (storage.SetTTL now (cache.defaultTTL c) (storage.newItem value)) c).
Proof.
  unfold cache.setBatchItem, written, with_map.
  rewrite <- storage_Get_fresh.
  destruct (storage.Get now key (cache.storage c)) as [r st] eqn:Hget.
  assert (st = (storage.Get now key (cache.storage c)).2) as Hst
    by by rewrite Hget.
  rewrite storage_Get_data in Hst. cache_simpl.
  destruct (cache.fresh now r); cache_simpl; [by subst st|].
  assert (storage.Size st =
          Z.of_nat (size (purged now key (storage.data (cache.storage c)))))
    as -> by by subst st.
  case_bool_decide; cache_simpl; [|by subst st].
  destruct (eviction.Evict (cache.policy c)) as [[victim|] p']; cache_simpl.
  - rewrite storage_Delete_snd. by subst st.
  - by subst st.
Qed.

Lemma written_lookup now key item c :
  storage.data (cache.storage (written now key item c)) !! key = Some item.
Proof.
  unfold written, with_map.
  destruct (cache.fresh now _); cache_simpl; [by apply lookup_insert_eq|].
  case_bool_decide; cache_simpl; [|by apply lookup_insert_eq].
  destruct ((eviction.Evict (cache.policy c)).1); cache_simpl;
    by apply lookup_insert_eq.
Qed.
End writes.

(** ** TTL 0 and negative TTLs *)

Section ttl.
Context {K : Type} `{Countable K} {V : Type}.
Local Open Scope Z_scope.
Implicit Types (c : cache.cache K V) (key : K) (now : Z).

Lemma IsExpired_without_ttl now (item : storage.Item V) :
  storage.HasTTL item = false → storage.IsExpired now item = false.
Proof. unfold storage.IsExpired. by intros ->. Qed.

Lemma SetTTL_zero now (value : V) :
  storage.SetTTL now 0 (storage.newItem value) = storage.mkItem value 0 false.
Proof. done. Qed.









End ttl.



(** ** Eviction of a key the store no longer holds *)

Section stale_victims.
Context {K : Type} `{Countable K} {V : Type}.
Local Open Scope Z_scope.
Implicit Types (c : cache.cache K V) (key : K) (now : Z).

Lemma written_stale_victim now key item c victim :
  let d := purged now key (storage.data (cache.storage c)) in
  cache.fresh now (storage.data (cache.storage c) !! key) = false →
  Z.of_nat (size d) >= cache.capacity c →
  (eviction.Evict (cache.policy c)).1 = Some victim →
  d !! victim = None →
  let c' := written now key item c in
  storage.data (cache.storage c') = <[key := item]> d ∧
  cache.evictions c' = cache.AddInt64 (cache.evictions c) 1.
Proof.
  intros d Hfresh Hfull Hev Hgone c'. subst c'. unfold written.
  rewrite Hfresh. fold d. rewrite bool_decide_eq_true_2 by done.
  rewrite Hev. cache_simpl. unfold with_map. cache_simpl. simpl.
  by rewrite delete_id.
Qed.

End stale_victims.

(** A cache of capacity 2 whose policy still tracks "a", the key of an
    entry that expired and was purged by a lookup, next to the two live
    entries "b" and "c". *)
Definition staleHistory : list (Z * cache.Op string string) :=
  [(0%Z, cache.OpSetWithTTL "a" "x" 1); (5%Z, cache.OpContains "a");
   (5%Z, cache.OpSet "b" "y"); (5%Z, cache.OpSet "c" "z")].

Definition staleVictim : cache.cache string string :=
  cache.run (cache.calls staleHistory) (cache.New [cache.WithCapacity 2]).



(** ** The LRU policy and the cache it drives *)

Section lru_order.
Context {K : Type} `{Countable K} {V : Type}.
Local Open Scope Z_scope.
Implicit Types (key : K) (now : Z) (d : gmap K (storage.Item V)).

Lemma lru_Access_new key (p : eviction.lru.lruPolicy K) :
  key ∉ eviction.lru.items p →
  eviction.lru.Access key p =
  eviction.lru.upd ({[key]} ∪ eviction.lru.items p)
                   (key :: eviction.lru.order p) p.
Proof. intros Hk. unfold eviction.lru.Access. by rewrite decide_False. Qed.

Lemma lru_Access_old key (p : eviction.lru.lruPolicy K) :
  key ∈ eviction.lru.items p →
  eviction.lru.Access key p =
  eviction.lru.upd (eviction.lru.items p)
                   (key :: eviction.remove_node key (eviction.lru.order p)) p.
Proof. intros Hk. unfold eviction.lru.Access. by rewrite decide_True. Qed.

Ltac lru_access :=
  match goal with
  | |- context [eviction.lru.Access ?k (eviction.lru.mk ?cp ?i ?o ?t)] =>
    first
      [ rewrite (lru_Access_new k (eviction.lru.mk cp i o t))
          by (cbn [eviction.lru.items]; set_solver)
      | rewrite (lru_Access_old k (eviction.lru.mk cp i o t))
          by (cbn [eviction.lru.items]; set_solver) ];
    unfold eviction.lru.upd;
    cbn [eviction.lru.items eviction.lru.order eviction.lru.capacity
         eviction.lru.threadSafe eviction.remove_node]
  end.

Lemma lru_access_abca (a b c : K) cap ts :
  a ≠ b → a ≠ c → b ≠ c →
  (eviction.lru.Evict
     (eviction.lru.Access a
        (eviction.lru.Access c
           (eviction.lru.Access b
              (eviction.lru.Access a
                 (eviction.lru.NewLRUWithConfig cap ts)))))).1
  = Some b.
Proof.
  intros Hab Hac Hbc. unfold eviction.lru.NewLRUWithConfig.
  do 4 lru_access.
  rewrite !decide_False by done. rewrite decide_True by done. done.
Qed.

Lemma New_lruCache (cap : Z) :
  0 < cap →
  cache.New (K:=K) (V:=V) [cache.WithCapacity cap] = lruCache ∅ ∅ [] cap 0 0 0.
Proof.
  intros Hc. unfold cache.New, cache.configure, lruCache. simpl.
  rewrite (bool_decide_eq_false_2 (cap ≤ 0)) by lia.
  unfold storage.Reserve, storage.NewMemoryStorageWithConfig,
    eviction.lru.NewLRUWithConfig. simpl.
  rewrite (bool_decide_eq_false_2 (cap ≤ 0)) by lia.
  by case_bool_decide.
Qed.

(** A write of a new key while there is room. *)
Lemma Set_room now key value d items order cap h m e :
  d !! key = None → key ∉ items → Z.of_nat (size d) < cap →
  (cache.Set_ now key value (lruCache d items order cap h m e)).2 =
  lruCache (<[key := plain value]> d) ({[key]} ∪ items) (key :: order)
           cap h m e.
Proof.
  intros Hk Hi Hroom. unfold cache.Set_. rewrite SetWithTTL_written.
  unfold written, clamp, purged, with_map. simpl.
  rewrite Hk. simpl.
  rewrite bool_decide_eq_false_2 by lia.
  unfold eviction.Access. simpl. unfold eviction.lru.Access. simpl.
  by rewrite decide_False.
Qed.

(** A write of a new key into a full store: the key at the back of the
    order list goes. *)
Lemma Set_full now key value d items order cap h m e victim :
  d !! key = None → key ∉ items → Z.of_nat (size d) >= cap →
  last order = Some victim →
  (cache.Set_ now key value (lruCache d items order cap h m e)).2 =
  lruCache (<[key := plain value]> (delete victim d))
           ({[key]} ∪ items ∖ {[victim]}) (key :: removelast order) cap h m
           (cache.AddInt64 e 1).
Proof.
  intros Hk Hi Hfull Hlast. unfold cache.Set_. rewrite SetWithTTL_written.
  unfold written, clamp, purged, with_map. simpl.
  rewrite Hk. simpl.
  rewrite bool_decide_eq_true_2 by lia.
  unfold eviction.Evict, eviction.Access. simpl.
  unfold eviction.lru.Evict. simpl.
  destruct order as [|k0 order]; [done|].
  rewrite bool_decide_eq_false_2 by done. rewrite Hlast. simpl.
  unfold eviction.lru.Access. simpl.
  rewrite decide_False by set_solver. done.
Qed.

Lemma Get_hit now key value d items order cap h m e :
  d !! key = Some (plain value) → key ∈ items →
  cache.Get now key (lruCache d items order cap h m e) =
  (Some value,
   lruCache d items (key :: eviction.remove_node key order) cap
            (cache.AddInt64 h 1) m e).
Proof.
  intros Hk Hi. erewrite Get_live; [|exact Hk|done]. simpl.
  unfold eviction.Access. simpl. unfold eviction.lru.Access. simpl.
  by rewrite decide_True.
Qed.

Lemma Get_miss now key d items order cap h m e :
  d !! key = None →
  cache.Get now key (lruCache d items order cap h m e) =
  (None, lruCache d items order cap h (cache.AddInt64 m 1) e).
Proof. intros Hk. by rewrite Get_absent. Qed.

Ltac map_size :=
  repeat (rewrite map_size_insert_None; [|by simplify_map_eq]);
  rewrite ?map_size_empty; lia.

Lemma run_calls_cons t o (h : list (Z * cache.Op K V)) c :
  cache.run (cache.calls ((t, o) :: h)) c =
  cache.run (cache.calls h) (cache.call t o c).
Proof. done. Qed.

Lemma run_calls_nil (c : cache.cache K V) : cache.run (cache.calls []) c = c.
Proof. done. Qed.

Lemma call_OpSet t key (value : V) c :
  cache.call t (cache.OpSet key value) c = (cache.Set_ t key value c).2.
Proof. done. Qed.

Lemma call_OpGet t key (c : cache.cache K V) :
  cache.call t (cache.OpGet key) c = (cache.Get t key c).2.
Proof. done. Qed.

(** Three writes of distinct keys into a fresh cache of capacity 3. *)
Lemma three_sets (k1 k2 k3 : K) (v1 v2 v3 : V) t1 t2 t3 :
  k1 ≠ k2 → k1 ≠ k3 → k2 ≠ k3 →
  cache.run
    (cache.calls [(t1, cache.OpSet k1 v1); (t2, cache.OpSet k2 v2);
                  (t3, cache.OpSet k3 v3)])
    (cache.New [cache.WithCapacity 3])
  = lruCache (<[k3:=plain v3]> (<[k2:=plain v2]> (<[k1:=plain v1]> ∅)))
             ({[k3]} ∪ ({[k2]} ∪ ({[k1]} ∪ ∅))) [k3; k2; k1] 3 0 0 0.
Proof.
  intros H12 H13 H23. rewrite New_lruCache by lia.
  rewrite !run_calls_cons, run_calls_nil, !call_OpSet.
  rewrite Set_room; [|by simplify_map_eq|set_solver|map_size].
  rewrite Set_room; [|by simplify_map_eq|set_solver|map_size].
  rewrite Set_room; [|by simplify_map_eq|set_solver|map_size].
  done.
Qed.

(** Then a read of the first key and a write of a fourth one. *)
Lemma get_then_set (k1 k2 k3 k4 : K) (v1 v2 v3 v4 : V) t4 t5 :
  k1 ≠ k2 → k1 ≠ k3 → k1 ≠ k4 → k2 ≠ k3 → k2 ≠ k4 → k3 ≠ k4 →
  cache.run
    (cache.calls [(t4, cache.OpGet k1); (t5, cache.OpSet k4 v4)])
    (lruCache (<[k3:=plain v3]> (<[k2:=plain v2]> (<[k1:=plain v1]> ∅)))
              ({[k3]} ∪ ({[k2]} ∪ ({[k1]} ∪ ∅))) [k3; k2; k1] 3 0 0 0)
  = lruCache
      (<[k4:=plain v4]>
         (delete k2
            (<[k3:=plain v3]> (<[k2:=plain v2]> (<[k1:=plain v1]> ∅)))))
      ({[k4]} ∪ ({[k3]} ∪ ({[k2]} ∪ ({[k1]} ∪ ∅))) ∖ {[k2]})
      [k4; k1; k3] 3 (cache.AddInt64 0 1) 0 (cache.AddInt64 0 1).
Proof.
  intros H12 H13 H14 H23 H24 H34.
  rewrite !run_calls_cons, run_calls_nil, call_OpSet, call_OpGet.
  rewrite (Get_hit _ k1 v1); [|by simplify_map_eq|set_solver].
  cbn [snd eviction.remove_node].
  rewrite !decide_False by done. rewrite decide_True by done.
  rewrite (Set_full _ _ _ _ _ _ _ _ _ _ k2);
    [|by simplify_map_eq|set_solver|map_size|done].
  done.
Qed.

(** C4.  On an empty LRU policy, after [Access a], [Access b], [Access c],
    [Access a] with [a], [b], [c] distinct, [Evict] returns [b].  And on a
    fresh cache of capacity 3 with the default (LRU) policy, for distinct
    keys: after set k1, set k2, set k3 the get of k1 finds v1, and after the
    following set k4 the store holds exactly k1, k3 and k4, a get finds each
    of them and does not find k2, and [evictions] is 1. *)
Theorem lru_evicts_least_recent
        (a b c k1 k2 k3 k4 : K) (v1 v2 v3 v4 : V) (cap : Z) (ts : bool)
        (t1 t2 t3 t4 t5 t : Z) :
  (a ≠ b → a ≠ c → b ≠ c →
   (eviction.lru.Evict
      (eviction.lru.Access a
         (eviction.lru.Access c
            (eviction.lru.Access b
               (eviction.lru.Access a
                  (eviction.lru.NewLRUWithConfig cap ts)))))).1
   = Some b) ∧
  (NoDup [k1; k2; k3; k4] →
   let c3 :=
     cache.run
       (cache.calls [(t1, cache.OpSet k1 v1); (t2, cache.OpSet k2 v2);
                     (t3, cache.OpSet k3 v3)])
       (cache.New [cache.WithCapacity 3]) in
   let c5 :=
     cache.run
       (cache.calls [(t4, cache.OpGet k1); (t5, cache.OpSet k4 v4)]) c3 in
   (cache.Get t4 k1 c3).1 = Some v1 ∧
   storeKeys c5 = {[k1; k3; k4]} ∧
   (cache.Get t k2 c5).1 = None ∧
   (cache.Get t k3 c5).1 = Some v3 ∧
   (cache.Get t k1 c5).1 = Some v1 ∧
   (cache.Get t k4 c5).1 = Some v4 ∧
   cache.evictions c5 = 1).
Proof.
  split; [apply lru_access_abca|].
  intros Hnd c3 c5.
  apply NoDup_cons in Hnd as [Hk1 Hnd]. apply NoDup_cons in Hnd as [Hk2 Hnd].
  apply NoDup_cons in Hnd as [Hk3 _].
  assert (k1 ≠ k2 ∧ k1 ≠ k3 ∧ k1 ≠ k4 ∧ k2 ≠ k3 ∧ k2 ≠ k4 ∧ k3 ≠ k4)
    as (H12 & H13 & H14 & H23 & H24 & H34) by set_solver.
  clear Hk1 Hk2 Hk3.
  pose proof (three_sets k1 k2 k3 v1 v2 v3 t1 t2 t3 H12 H13 H23) as Hc3.
  pose proof (get_then_set k1 k2 k3 k4 v1 v2 v3 v4 t4 t5
                           H12 H13 H14 H23 H24 H34) as Hc5.
  rewrite <- Hc3 in Hc5. fold c3 in Hc3, Hc5. fold c5 in Hc5.
  clearbody c5. clearbody c3. subst c3 c5.
  split; [by rewrite (Get_hit _ k1 v1); [|by simplify_map_eq|set_solver]|].
  split.
  { unfold storeKeys, lruCache. simpl.
    rewrite dom_insert_L, dom_delete_L, !dom_insert_L, dom_empty_L.
    set_solver. }
  split; [by rewrite Get_miss by by simplify_map_eq|].
  split; [by rewrite (Get_hit _ k3 v3); [|by simplify_map_eq|set_solver]|].
  split; [by rewrite (Get_hit _ k1 v1); [|by simplify_map_eq|set_solver]|].
  split; [by rewrite (Get_hit _ k4 v4); [|by simplify_map_eq|set_solver]|].
  done.
Qed.
End lru_order.

Lemma lru_evicts_least_recent_witness :
  (eviction.lru.Evict
     (eviction.lru.Access "a"
        (eviction.lru.Access "c"
           (eviction.lru.Access "b"
              (eviction.lru.Access "a"
                 (eviction.lru.NewLRUWithConfig 3 true)))))).1
  = Some "b" ∧
  cache.evictions
    (cache.run
       (cache.calls [(0%Z, cache.OpGet "k1"); (0%Z, cache.OpSet "k4" "v4")])
       (cache.run
          (cache.calls [(0%Z, cache.OpSet "k1" "v1");
                        (0%Z, cache.OpSet "k2" "v2");
                        (0%Z, cache.OpSet "k3" "v3")])
          (cache.New [cache.WithCapacity 3]))) = 1%Z.
Proof.
  pose proof (lru_evicts_least_recent
                "a" "b" "c" "k1" "k2" "k3" "k4" "v1" "v2" "v3" "v4"
                3 true 0 0 0 0 0 0) as [Hpolicy Hcache].
  split.
  - apply Hpolicy; discriminate.
  - apply Hcache. compute_done.
Defined.

(** ** The built-in policies keep the contract *)

Section policies.
Context {K : Type} `{Countable K}.
Local Open Scope Z_scope.
Implicit Types (key : K) (l : list K) (S : gset K).

Lemma remove_node_elem key l k :
  NoDup l → k ∈ eviction.remove_node key l ↔ k ∈ l ∧ k ≠ key.
Proof.
  induction l as [|x l IH]; intros Hnd; simpl.
  - split; [by intros ?%not_elem_of_nil|by intros [?%not_elem_of_nil _]].
  - apply NoDup_cons in Hnd as [Hx Hnd].
    destruct (decide (x = key)) as [->|Hne].
    + rewrite elem_of_cons. split.
      * intros Hk. split; [by right|]. by intros ->.
      * by intros [[->|Hk] Hne].
    + rewrite !elem_of_cons, IH by done. split.
      * intros [->|[Hk Hne']]; split; auto.
      * intros [[->|Hk] Hne']; auto.
Qed.

Lemma remove_node_NoDup key l : NoDup l → NoDup (eviction.remove_node key l).
Proof.
  induction l as [|x l IH]; intros Hnd; simpl; [done|].
  apply NoDup_cons in Hnd as [Hx Hnd].
  destruct (decide (x = key)); [done|].
  apply NoDup_cons. split; [|by apply IH].
  rewrite remove_node_elem by done. by intros [? _].
Qed.

Lemma linked_empty : linked (∅ : gset K) [].
Proof. split; [constructor|]. intros key. set_solver. Qed.

Lemma linked_nil S : linked S [] → S = ∅.
Proof. intros [_ Hl]. apply set_eq. intros k. set_solver. Qed.

Lemma linked_push_front S l key :
  linked S l → key ∉ S → linked ({[key]} ∪ S) (key :: l).
Proof.
  intros [Hnd Hl] Hk. split.
  - apply NoDup_cons. split; [by rewrite Hl|done].
  - intros k. rewrite elem_of_cons, Hl. set_solver.
Qed.

Lemma linked_push_back S l key :
  linked S l → key ∉ S → linked ({[key]} ∪ S) (l ++ [key]).
Proof.
  intros [Hnd Hl] Hk. split.
  - apply NoDup_app. split; [done|]. split; [|apply NoDup_singleton].
    intros k Hin ->%list_elem_of_singleton. by apply Hk, Hl.
  - intros k. rewrite elem_of_app, list_elem_of_singleton, Hl. set_solver.
Qed.

Lemma linked_remove S l key :
  linked S l → linked (S ∖ {[key]}) (eviction.remove_node key l).
Proof.
  intros [Hnd Hl]. split; [by apply remove_node_NoDup|].
  intros k. rewrite remove_node_elem, Hl by done. set_solver.
Qed.

Lemma linked_move_front S l key :
  linked S l → key ∈ S → linked S (key :: eviction.remove_node key l).
Proof.
  intros Hl Hk.
  assert (S = {[key]} ∪ S ∖ {[key]}) as HS.
  { apply set_eq. intros k. destruct (decide (k = key)); set_solver. }
  rewrite HS at 1. apply linked_push_front; [by apply linked_remove|].
  set_solver.
Qed.

Lemma linked_pop_front S l key :
  linked S (key :: l) → key ∈ S ∧ linked (S ∖ {[key]}) l.
Proof.
  intros [Hnd Hl]. apply NoDup_cons in Hnd as [Hk Hnd].
  split; [apply Hl, list_elem_of_here|]. split; [done|].
  intros k. specialize (Hl k). rewrite elem_of_cons in Hl.
  rewrite elem_of_difference, elem_of_singleton. split.
  - intros Hin. split; [tauto|]. by intros ->.
  - intros [HS Hne]. tauto.
Qed.

Lemma linked_pop_back S l key :
  last l = Some key → linked S l →
  key ∈ S ∧ linked (S ∖ {[key]}) (removelast l).
Proof.
  intros (l' & ->)%last_Some [Hnd Hl]. rewrite removelast_last.
  apply NoDup_app in Hnd as (Hnd & Hdisj & _).
  split; [apply Hl; rewrite elem_of_app, list_elem_of_singleton; auto|].
  split; [done|].
  intros k. specialize (Hl k).
  rewrite elem_of_app, list_elem_of_singleton in Hl.
  rewrite elem_of_difference, elem_of_singleton. split.
  - intros Hin. split; [tauto|]. intros ->.
    apply (Hdisj key Hin), list_elem_of_singleton. done.
  - intros [HS Hne]. tauto.
Qed.

Lemma lru_contract : contract (tracksLRU (K:=K)).
Proof.
  split.
  - intros p S key (s & -> & <- & Hl).
    exists (eviction.lru.Access key s). split; [done|].
    unfold eviction.lru.Access. destruct (decide (key ∈ _)) as [Hk|Hk]; simpl.
    + split; [set_solver|]. by apply linked_move_front.
    + split; [done|]. by apply linked_push_front.
  - intros p S (s & -> & <- & Hl).
    unfold eviction.Evict. cbn [eviction.ofLRU eviction.Evict_ eviction.self].
    unfold eviction.lru.Evict.
    destruct (eviction.lru.order s) as [|k0 l] eqn:Ho.
    { simpl. apply linked_nil in Hl. split; [done|].
      exists s. rewrite Hl, Ho. by split; [|split; [|apply linked_empty]]. }
    rewrite bool_decide_eq_false_2 by done.
    destruct (last (k0 :: l)) as [key|] eqn:Hlast.
    + simpl. destruct (linked_pop_back _ _ _ Hlast Hl) as [Hk Hl'].
      split; [done|]. by eexists (eviction.lru.upd _ _ s).
    + by apply last_None in Hlast.
  - intros p S key (s & -> & <- & Hl).
    exists (eviction.lru.Remove key s). split; [done|].
    unfold eviction.lru.Remove. destruct (decide (key ∈ _)) as [Hk|Hk]; simpl.
    + split; [done|]. by apply linked_remove.
    + split; [set_solver|done].
  - intros p S (s & -> & <- & Hl).
    exists (eviction.lru.Clear s). by split; [|split; [|apply linked_empty]].
  - by intros p S (s & -> & <- & Hl).
Qed.

Lemma fifo_contract : contract (tracksFIFO (K:=K)).
Proof.
  split.
  - intros p S key (s & -> & <- & Hl).
    exists (eviction.fifo.Access key s). split; [done|].
    unfold eviction.fifo.Access. destruct (decide (key ∈ _)) as [Hk|Hk]; simpl.
    + split; [set_solver|done].
    + split; [done|]. by apply linked_push_back.
  - intros p S (s & -> & <- & Hl).
    unfold eviction.Evict. cbn [eviction.ofFIFO eviction.Evict_ eviction.self].
    unfold eviction.fifo.Evict.
    destruct (eviction.fifo.order s) as [|k0 l] eqn:Ho.
    { simpl. apply linked_nil in Hl. split; [done|].
      exists s. rewrite Hl, Ho. by split; [|split; [|apply linked_empty]]. }
    rewrite bool_decide_eq_false_2 by done. simpl.
    destruct (linked_pop_front _ _ _ Hl) as [Hk Hl'].
    split; [done|]. by eexists (eviction.fifo.upd _ _ s).
  - intros p S key (s & -> & <- & Hl).
    exists (eviction.fifo.Remove key s). split; [done|].
    unfold eviction.fifo.Remove. destruct (decide (key ∈ _)) as [Hk|Hk]; simpl.
    + split; [done|]. by apply linked_remove.
    + split; [set_solver|done].
  - intros p S (s & -> & <- & Hl).
    exists (eviction.fifo.Clear s). by split; [|split; [|apply linked_empty]].
  - by intros p S (s & -> & <- & Hl).
Qed.

Lemma lifo_contract : contract (tracksLIFO (K:=K)).
Proof.
  split.
  - intros p S key (s & -> & <- & Hl).
    exists (eviction.lifo.Access key s). split; [done|].
    unfold eviction.lifo.Access. destruct (decide (key ∈ _)) as [Hk|Hk]; simpl.
    + split; [set_solver|done].
    + split; [done|]. by apply linked_push_back.
  - intros p S (s & -> & <- & Hl).
    unfold eviction.Evict. cbn [eviction.ofLIFO eviction.Evict_ eviction.self].
    unfold eviction.lifo.Evict.
    destruct (eviction.lifo.order s) as [|k0 l] eqn:Ho.
    { simpl. apply linked_nil in Hl. split; [done|].
      exists s. rewrite Hl, Ho. by split; [|split; [|apply linked_empty]]. }
    rewrite bool_decide_eq_false_2 by done.
    destruct (last (k0 :: l)) as [key|] eqn:Hlast.
    + simpl. destruct (linked_pop_back _ _ _ Hlast Hl) as [Hk Hl'].
      split; [done|]. by eexists (eviction.lifo.upd _ _ s).
    + by apply last_None in Hlast.
  - intros p S key (s & -> & <- & Hl).
    exists (eviction.lifo.Remove key s). split; [done|].
    unfold eviction.lifo.Remove. destruct (decide (key ∈ _)) as [Hk|Hk]; simpl.
    + split; [done|]. by apply linked_remove.
    + split; [set_solver|done].
  - intros p S (s & -> & <- & Hl).
    exists (eviction.lifo.Clear s). by split; [|split; [|apply linked_empty]].
  - by intros p S (s & -> & <- & Hl).
Qed.
End policies.

(** ** The keys of the store and the keys the policy tracks *)

Section coherence.
Context {K : Type} `{Countable K} {V : Type}.
Context (R : eviction.Policy K → gset K → Prop) (HR : contract R).
Local Open Scope Z_scope.
Implicit Types (c : cache.cache K V) (key : K) (now : Z) (S : gset K).

Lemma dom_purged now key (d : gmap K (storage.Item V)) :
  dom (purged now key d) ⊆ dom d.
Proof.
  unfold purged. destruct (d !! key) as [item|]; [|done].
  destruct (storage.IsExpired now item); [|done].
  rewrite dom_delete_L. set_solver.
Qed.

Lemma coherent_shrink c d p S :
  R p S → storeKeys c ⊆ S → dom d ⊆ storeKeys c →
  coherent R (cache.set_policy p (with_map d c)).
Proof. intros HS Hsub Hd. exists S. split; [done|]. set_solver. Qed.

Lemma coherent_purge now key c :
  coherent R c →
  coherent R (with_map (purged now key (storage.data (cache.storage c))) c).
Proof.
  intros (S & HS & Hsub). exists S. split; [done|].
  pose proof (dom_purged now key (storage.data (cache.storage c))).
  unfold storeKeys in *. simpl. set_solver.
Qed.

Lemma coherent_access key c :
  coherent R c →
  coherent R (cache.set_policy (eviction.Access key (cache.policy c)) c).
Proof.
  intros (S & HS & Hsub). exists ({[key]} ∪ S).
  split; [by apply HR|]. unfold storeKeys in *. simpl. set_solver.
Qed.

Lemma coherent_stats h m e c :
  coherent R c → coherent R (cache.set_stats h m e c).
Proof. by intros (S & HS & Hsub); exists S. Qed.

Lemma Get_snd now key c :
  (cache.Get now key c).2 =
  let c1 := with_map (purged now key (storage.data (cache.storage c))) c in
  if cache.fresh now (storage.data (cache.storage c) !! key)
  then cache.set_stats (cache.AddInt64 (cache.hits c) 1) (cache.misses c)
         (cache.evictions c)
         (cache.set_policy (eviction.Access key (cache.policy c)) c1)
  else cache.set_stats (cache.hits c) (cache.AddInt64 (cache.misses c) 1)
         (cache.evictions c) c1.
Proof.
  unfold cache.Get, with_map. rewrite <- storage_Get_data, storage_Get_unfold.
  destruct (storage.data (cache.storage c) !! key) as [item|]; [|done].
  destruct (storage.IsExpired now item) eqn:Hx; simpl; by rewrite ?Hx.
Qed.

Lemma coherent_Get now key c :
  coherent R c → coherent R (cache.Get now key c).2.
Proof.
  intros Hc. rewrite Get_snd. cbn zeta.
  destruct (cache.fresh now _).
  - apply coherent_stats.
    apply (coherent_access key (with_map _ c)). by apply coherent_purge.
  - apply coherent_stats. by apply coherent_purge.
Qed.

Lemma Contains_snd now key c :
  (cache.Contains now key c).2 =
  with_map (purged now key (storage.data (cache.storage c))) c.
Proof.
  unfold cache.Contains, with_map. rewrite <- storage_Get_data.
  by destruct (storage.Get now key (cache.storage c)).
Qed.

Lemma coherent_written now key item c :
  coherent R c → coherent R (written now key item c).
Proof.
  intros Hc. apply (coherent_purge now key) in Hc.
  destruct Hc as (S & HS & Hsub). unfold storeKeys, with_map in Hsub, HS.
  cache_simpl. cbn [storage.data storage.with_data] in Hsub.
  unfold written, coherent, storeKeys, with_map.
  destruct (cache.fresh now _); cache_simpl; cbn [storage.data storage.with_data].
  { exists ({[key]} ∪ S). split; [by apply HR|].
    rewrite dom_insert_L. set_solver. }
  case_bool_decide; cache_simpl; cbn [storage.data storage.with_data].
  - pose proof (contract_evict R HR _ _ HS) as Hev.
    destruct ((eviction.Evict (cache.policy c)).1) as [victim|];
      cache_simpl; cbn [storage.data storage.with_data].
    + destruct Hev as [Hv HS']. exists ({[key]} ∪ S ∖ {[victim]}).
      split; [by apply HR|]. rewrite dom_insert_L, dom_delete_L. set_solver.
    + destruct Hev as [-> HS']. exists ({[key]} ∪ ∅).
      split; [by apply HR|]. rewrite dom_insert_L. set_solver.
  - exists ({[key]} ∪ S). split; [by apply HR|].
    rewrite dom_insert_L. set_solver.
Qed.

Lemma Delete_snd key c :
  (cache.Delete key c).2 =
  if bool_decide (is_Some (storage.data (cache.storage c) !! key))
  then cache.set_policy (eviction.Remove key (cache.policy c))
         (with_map (delete key (storage.data (cache.storage c))) c)
  else c.
Proof.
  unfold cache.Delete, storage.Delete, with_map.
  destruct (storage.data (cache.storage c) !! key) as [item|] eqn:Hk.
  - by rewrite bool_decide_eq_true_2 by eauto.
  - rewrite bool_decide_eq_false_2 by by intros [? ?].
    simpl. by destruct c.
Qed.

Lemma coherent_Delete key c :
  coherent R c → coherent R (cache.Delete key c).2.
Proof.
  intros (S & HS & Hsub). rewrite Delete_snd.
  case_bool_decide; [|by exists S].
  exists (S ∖ {[key]}). split; [by apply HR|].
  unfold storeKeys, with_map in *. simpl. rewrite dom_delete_L. set_solver.
Qed.

Lemma coherent_Clear c : coherent R c → coherent R (cache.Clear c).
Proof.
  intros (S & HS & Hsub). exists ∅. split; [by eapply HR|].
  unfold storeKeys, cache.Clear. simpl. by rewrite dom_empty_L.
Qed.

Lemma coherent_cleanup now c : coherent R c → coherent R (cache.cleanup now c).
Proof.
  intros (S & HS & Hsub). exists S. split; [done|].
  unfold storeKeys, cache.cleanup in *. simpl.
  etrans; [apply dom_filter_subseteq|done].
Qed.

Lemma coherent_SetBatch now items c :
  coherent R c → coherent R (cache.SetBatch now items c).2.
Proof.
  unfold cache.SetBatch. intros Hc.
  assert (∀ acc : Z * cache.cache K V,
            coherent R acc.2 →
            coherent R (foldl (cache.setBatchLoop now) acc items).2) as Hfold.
  { clear c Hc.
    induction items as [|[key value] items IH]; intros acc Hacc; [done|].
    cbn [foldl]. apply IH. unfold cache.setBatchLoop.
    rewrite setBatchItem_written. cbn [fst snd]. by apply coherent_written. }
  by apply Hfold.
Qed.
Lemma getBatchLoop_snd now (acc : gmap K V * cache.cache K V) key :
  (cache.getBatchLoop now acc key).2 = (cache.Get now key acc.2).2.
Proof.
  unfold cache.getBatchLoop, cache.Get.
  destruct (storage.Get now key (cache.storage acc.2)) as [[item|] st]; [|done].
  by destruct (storage.IsExpired now item).
Qed.

Lemma GetBatch_snd_cons now key keys c :
  (cache.GetBatch now (key :: keys) c).2 =
  (cache.GetBatch now keys (cache.Get now key c).2).2.
Proof.
  unfold cache.GetBatch. cbn [foldl].
  assert (∀ acc acc' : gmap K V * cache.cache K V,
            acc.2 = acc'.2 →
            (foldl (cache.getBatchLoop now) acc keys).2 =
            (foldl (cache.getBatchLoop now) acc' keys).2) as Hfold.
  { induction keys as [|k keys IH]; intros acc acc' Heq; [done|].
    cbn [foldl]. apply IH. by rewrite !getBatchLoop_snd, Heq. }
  apply Hfold. by rewrite getBatchLoop_snd.
Qed.

Lemma coherent_GetBatch now keys c :
  coherent R c → coherent R (cache.GetBatch now keys c).2.
Proof.
  revert c. induction keys as [|key keys IH]; intros c Hc; [done|].
  rewrite GetBatch_snd_cons. by apply IH, coherent_Get.
Qed.

Lemma deleteBatchLoop_snd (acc : Z * cache.cache K V) key :
  (cache.deleteBatchLoop acc key).2 = (cache.Delete key acc.2).2.
Proof.
  unfold cache.deleteBatchLoop, cache.Delete.
  by destruct (storage.Delete key (cache.storage acc.2)) as [[] st].
Qed.

Lemma DeleteBatch_snd_cons key keys c :
  (cache.DeleteBatch (key :: keys) c).2 =
  (cache.DeleteBatch keys (cache.Delete key c).2).2.
Proof.
  unfold cache.DeleteBatch. cbn [foldl].
  assert (∀ acc acc' : Z * cache.cache K V,
            acc.2 = acc'.2 →
            (foldl cache.deleteBatchLoop acc keys).2 =
            (foldl cache.deleteBatchLoop acc' keys).2) as Hfold.
  { induction keys as [|k keys IH]; intros acc acc' Heq; [done|].
    cbn [foldl]. apply IH. by rewrite !deleteBatchLoop_snd, Heq. }
  apply Hfold. by rewrite deleteBatchLoop_snd.
Qed.

Lemma coherent_DeleteBatch keys c :
  coherent R c → coherent R (cache.DeleteBatch keys c).2.
Proof.
  revert c. induction keys as [|key keys IH]; intros c Hc; [done|].
  rewrite DeleteBatch_snd_cons. by apply IH, coherent_Delete.
Qed.

Lemma coherent_step c e : coherent R c → coherent R (cache.step c e).
Proof.
  intros Hc. destruct e as [now [o|]]; unfold cache.step; cbn [fst snd].
  - destruct o; cbn [cache.call]; try done.
    + by apply coherent_Get.
    + unfold cache.Set_. rewrite SetWithTTL_written. by apply coherent_written.
    + rewrite SetWithTTL_written. by apply coherent_written.
    + by apply coherent_Delete.
    + by apply coherent_Clear.
    + rewrite Contains_snd. by apply coherent_purge.
    + by apply coherent_SetBatch.
    + by apply coherent_GetBatch.
    + by apply coherent_DeleteBatch.
  - by apply coherent_cleanup.
Qed.

Lemma coherent_run h c : coherent R c → coherent R (cache.run h c).
Proof.
  revert c. induction h as [|e h IH]; intros c Hc; [done|].
  cbn [cache.run foldl]. by apply IH, coherent_step.
Qed.

Lemma coherent_sizes c :
  coherent R c → storage.Size (cache.storage c) ≤ eviction.Size (cache.policy c).
Proof.
  intros (S & HS & Hsub). rewrite (contract_size R HR _ _ HS).
  unfold storage.Size. apply inj_le. rewrite <- size_dom.
  by apply subseteq_size.
Qed.
End coherence.

(** ** Caches whose entries carry no TTL *)

Section without_ttl.
Context {K : Type} `{Countable K} {V : Type}.
Context (R : eviction.Policy K → gset K → Prop) (HR : contract R).
Local Open Scope Z_scope.
Implicit Types (c : cache.cache K V) (key : K) (now : Z) (S : gset K).

Lemma noTTL_purged now key c :
  noTTL c →
  purged now key (storage.data (cache.storage c)) =
  storage.data (cache.storage c).
Proof.
  intros Hno. unfold purged.
  destruct (storage.data (cache.storage c) !! key) as [item|] eqn:Hk; [|done].
  by rewrite IsExpired_without_ttl by by eapply Hno.
Qed.

Lemma noTTL_fresh now key c :
  noTTL c →
  cache.fresh now (storage.data (cache.storage c) !! key) =
  bool_decide (is_Some (storage.data (cache.storage c) !! key)).
Proof.
  intros Hno.
  destruct (storage.data (cache.storage c) !! key) as [item|] eqn:Hk.
  - cbn [cache.fresh]. rewrite IsExpired_without_ttl by by eapply Hno.
    symmetry. apply bool_decide_eq_true_2. eauto.
  - symmetry. apply bool_decide_eq_false_2. by intros [? ?].
Qed.

Lemma with_map_same c : with_map (storage.data (cache.storage c)) c = c.
Proof. unfold with_map. by rewrite with_data_same, set_storage_same. Qed.

Lemma SetTTL_zero_plain now (value : V) :
  storage.SetTTL now 0 (storage.newItem value) = plain value.
Proof. done. Qed.

Lemma exact_Get now key c :
  exact R c →
  exact R (cache.Get now key c).2 ∧ (bounded c → bounded (cache.Get now key c).2).
Proof.
  intros [Hno HS]. rewrite Get_snd. cbn zeta.
  rewrite noTTL_purged, with_map_same, noTTL_fresh by done.
  case_bool_decide as Hk; [|done].
  split; [|done]. split; [done|].
  unfold storeKeys in *. cache_simpl.
  assert (dom (storage.data (cache.storage c)) =
          {[key]} ∪ dom (storage.data (cache.storage c))) as ->.
  { apply elem_of_dom in Hk. set_solver. }
  by apply HR.
Qed.

Lemma exact_Contains now key c :
  exact R c → (cache.Contains now key c).2 = c.
Proof.
  intros [Hno HS]. by rewrite Contains_snd, noTTL_purged, with_map_same.
Qed.

Lemma exact_cleanup now c : exact R c → cache.cleanup now c = c.
Proof.
  intros [Hno HS]. unfold cache.cleanup, storage.CleanupExpired. cbn [snd].
  rewrite map_filter_id; [apply with_map_same|].
  intros key item Hk. simpl. apply IsExpired_without_ttl. by eapply Hno.
Qed.

Lemma exact_written now key item c :
  storage.HasTTL item = false →
  exact R c →
  exact R (written now key item c) ∧
  (bounded c → bounded (written now key item c)).
Proof.
  intros Hitem [Hno HS]. unfold written.
  rewrite noTTL_purged, noTTL_fresh by done.
  assert (∀ d' : gmap K (storage.Item V),
            (∀ k it, d' !! k = Some it →
                     storage.data (cache.storage c) !! k = Some it) →
            ∀ k it, <[key := item]> d' !! k = Some it →
                    storage.HasTTL it = false) as Hins.
  { intros d' Hd' k it. destruct (decide (k = key)) as [->|Hne].
    - rewrite lookup_insert_eq. by intros [= <-].
    - rewrite lookup_insert_ne by done. intros Hk%Hd'. by eapply Hno. }
  unfold exact, noTTL, bounded, storeKeys, with_map, cache.Size, storage.Size
    in *.
  case_bool_decide as Hk; cache_simpl; cbn [storage.data storage.with_data].
  { rewrite dom_insert_L. split.
    - split; [by apply Hins|by apply HR].
    - by rewrite map_size_insert_Some. }
  assert (storage.data (cache.storage c) !! key = None) as Hnone.
  { destruct (storage.data (cache.storage c) !! key) eqn:E; [|done].
    destruct Hk. eauto. }
  case_bool_decide as Hfull; cache_simpl; cbn [storage.data storage.with_data].
  - pose proof (contract_evict R HR _ _ HS) as Hev.
    destruct ((eviction.Evict (cache.policy c)).1) as [victim|];
      cache_simpl; cbn [storage.data storage.with_data].
    + destruct Hev as [Hv HS']. apply elem_of_dom in Hv as [vit Hv].
      rewrite dom_insert_L, dom_delete_L. split.
      * split; [|by apply HR]. apply Hins. intros k it.
        rewrite lookup_delete_Some. by intros [_ ?].
      * intros [Hpos Hle]. split; [done|].
        rewrite map_size_insert_None
          by (rewrite lookup_delete_ne; [done|congruence]).
        rewrite map_size_delete, Hv.
        assert (size (storage.data (cache.storage c)) ≠ 0%nat) as Hsz.
        { intros Hz%map_size_empty_inv. rewrite Hz in Hv.
          by rewrite lookup_empty in Hv. }
        lia.
    + destruct Hev as [Hempty HS']. apply dom_empty_inv_L in Hempty.
      rewrite Hempty. rewrite dom_insert_L, dom_empty_L.
      split.
      * split; [|by apply HR]. apply Hins. intros k it.
        by rewrite lookup_empty.
      * intros [Hpos Hle]. split; [done|].
        rewrite map_size_insert_None, map_size_empty by apply lookup_empty.
        lia.
  - rewrite dom_insert_L. split.
    + split; [by apply Hins|by apply HR].
    + intros [Hpos Hle]. split; [done|].
      rewrite map_size_insert_None by done. lia.
Qed.

Lemma exact_Delete key c :
  exact R c →
  exact R (cache.Delete key c).2 ∧ (bounded c → bounded (cache.Delete key c).2).
Proof.
  intros [Hno HS]. rewrite Delete_snd. case_bool_decide as Hk; [|done].
  unfold exact, noTTL, bounded, storeKeys, with_map, cache.Size, storage.Size
    in *.
  cache_simpl. cbn [storage.data storage.with_data].
  rewrite dom_delete_L. split.
  - split; [|by apply HR]. intros k it.
    rewrite lookup_delete_Some. intros [_ ?]. by eapply Hno.
  - intros [Hpos Hle]. split; [done|]. rewrite map_size_delete.
    destruct (storage.data (cache.storage c) !! key); unfold id; lia.
Qed.

Lemma exact_Clear c :
  exact R c → exact R (cache.Clear c) ∧ (bounded c → bounded (cache.Clear c)).
Proof.
  intros [Hno HS].
  unfold exact, noTTL, bounded, storeKeys, cache.Clear, cache.Size,
    storage.Size, storage.Clear in *.
  cache_simpl. cbn [storage.data storage.with_data].
  rewrite dom_empty_L, map_size_empty. split.
  - split; [|by eapply HR]. intros k it. by rewrite lookup_empty.
  - intros [Hpos Hle]. split; [done|]. simpl. lia.
Qed.
End without_ttl.

Section without_ttl_histories.
Context {K : Type} `{Countable K} {V : Type}.
Context (R : eviction.Policy K → gset K → Prop) (HR : contract R).
Local Open Scope Z_scope.
Implicit Types (c : cache.cache K V) (key : K) (now : Z).

Lemma exact_SetBatch now items c :
  cache.defaultTTL c = 0 →
  exact R c →
  exact R (cache.SetBatch now items c).2 ∧
  (bounded c → bounded (cache.SetBatch now items c).2).
Proof.
  intros Httl Hc. unfold cache.SetBatch.
  assert (∀ acc : Z * cache.cache K V,
            cache.defaultTTL acc.2 = 0 → exact R acc.2 →
            exact R (foldl (cache.setBatchLoop now) acc items).2 ∧
            (bounded acc.2 →
             bounded (foldl (cache.setBatchLoop now) acc items).2)) as Hfold.
  { clear c Httl Hc.
    induction items as [|[key value] items IH]; intros acc Httl Hacc; [done|].
    cbn [foldl].
    assert ((cache.setBatchLoop now acc (key, value)).2 =
            written now key (plain value) acc.2) as Hloop.
    { unfold cache.setBatchLoop. rewrite setBatchItem_written, Httl. done. }
    destruct (exact_written R HR now key (plain value) acc.2 eq_refl Hacc)
      as [Hex Hbd].
    destruct (IH (cache.setBatchLoop now acc (key, value))) as [Hex' Hbd'].
    - rewrite Hloop.
      pose proof (sameSetup_setBatchItem now key value acc.2) as Hs.
      rewrite setBatchItem_written, Httl in Hs.
      destruct Hs as (_ & Hd & _). cbn [snd] in Hd.
      etrans; [exact Hd|done].
    - by rewrite Hloop.
    - split; [done|]. intros Hb. apply Hbd'. rewrite Hloop. by apply Hbd. }
  by apply Hfold.
Qed.

Lemma exact_GetBatch now keys c :
  exact R c →
  exact R (cache.GetBatch now keys c).2 ∧
  (bounded c → bounded (cache.GetBatch now keys c).2).
Proof.
  revert c. induction keys as [|key keys IH]; intros c Hc; [done|].
  rewrite GetBatch_snd_cons.
  destruct (exact_Get R HR now key c Hc) as [Hex Hbd].
  destruct (IH _ Hex) as [Hex' Hbd']. auto.
Qed.

Lemma exact_DeleteBatch keys c :
  exact R c →
  exact R (cache.DeleteBatch keys c).2 ∧
  (bounded c → bounded (cache.DeleteBatch keys c).2).
Proof.
  revert c. induction keys as [|key keys IH]; intros c Hc; [done|].
  rewrite DeleteBatch_snd_cons.
  destruct (exact_Delete R HR key c Hc) as [Hex Hbd].
  destruct (IH _ Hex) as [Hex' Hbd']. auto.
Qed.

Lemma exact_step c e :
  writesNoTTL c e → exact R c →
  exact R (cache.step c e) ∧ (bounded c → bounded (cache.step c e)).
Proof.
  intros Hw Hc. destruct e as [now [o|]]; unfold cache.step; cbn [fst snd].
  - destruct o; cbn [cache.call]; unfold writesNoTTL in Hw; cbn in Hw;
      try done.
    + by apply exact_Get.
    + unfold cache.Set_. rewrite SetWithTTL_written, Hw. cbn [snd].
      by apply exact_written.
    + rewrite SetWithTTL_written, Hw. cbn [snd]. by apply exact_written.
    + by apply exact_Delete.
    + by apply exact_Clear.
    + by rewrite (exact_Contains R).
    + destruct Hw as [->|Httl]; [done|]. by apply exact_SetBatch.
    + by apply exact_GetBatch.
    + by apply exact_DeleteBatch.
  - by rewrite (exact_cleanup R).
Qed.

Lemma writesNoTTL_sameSetup c c' e :
  sameSetup c c' → writesNoTTL c e → writesNoTTL c' e.
Proof.
  intros (_ & Hd & Hm & _). unfold writesNoTTL, clamp.
  destruct e as [now [[]|]]; cbn; by rewrite ?Hd, ?Hm.
Qed.

Lemma exact_run h c :
  Forall (writesNoTTL c) h → exact R c →
  exact R (cache.run h c) ∧ (bounded c → bounded (cache.run h c)).
Proof.
  intros Hh. revert c Hh. induction h as [|e h IH]; intros c Hh Hc; [done|].
  apply Forall_cons in Hh as [He Hh]. cbn [cache.run foldl].
  destruct (exact_step c e He Hc) as [Hex Hbd].
  destruct (IH (cache.step c e)) as [Hex' Hbd']; [|done|by auto].
  eapply Forall_impl; [exact Hh|]. intros e'.
  apply writesNoTTL_sameSetup, sameSetup_step.
Qed.
End without_ttl_histories.

(** ** Histories: what stays true of a cache *)

Section histories.
Context {K : Type} `{Countable K} {V : Type}.
Local Open Scope Z_scope.
Implicit Types (c : cache.cache K V) (key : K) (now : Z).

(** Whatever calls are made and whenever the sweeper ticks, every key of
    the store stays tracked by a policy that keeps the contract; [Size] is
    the size of the store, which never exceeds the size of the policy. *)
Theorem store_keys_stay_tracked
        (R : eviction.Policy K → gset K → Prop) c h :
  contract R → coherent R c →
  coherent R (cache.run h c) ∧
  cache.Size (cache.run h c) = storage.Size (cache.storage (cache.run h c)) ∧
  cache.Size (cache.run h c) ≤ eviction.Size (cache.policy (cache.run h c)).
Proof.
  intros HR Hc. pose proof (coherent_run R HR h c Hc) as Hrun.
  split; [done|]. split; [done|]. by apply (coherent_sizes R).
Qed.

Lemma exact_sizes (R : eviction.Policy K → gset K → Prop) c :
  contract R → exact R c →
  eviction.Size (cache.policy c) = cache.Size c.
Proof.
  intros HR [_ HS]. rewrite (contract_size R HR _ _ HS).
  unfold cache.Size, storage.Size, storeKeys. by rewrite size_dom.
Qed.

(** As long as no entry with a TTL is written, the policy tracks exactly
    the keys of the store, and the sizes of store and policy are equal. *)
Theorem without_ttl_policy_tracks_store
        (R : eviction.Policy K → gset K → Prop) c h :
  contract R → exact R c → Forall (writesNoTTL c) h →
  R (cache.policy (cache.run h c)) (storeKeys (cache.run h c)) ∧
  eviction.Size (cache.policy (cache.run h c)) = cache.Size (cache.run h c).
Proof.
  intros HR Hc Hh. destruct (exact_run R HR h c Hh Hc) as [Hex _].
  split; [apply Hex|]. by apply (exact_sizes R).
Qed.

(** As long as no entry with a TTL is written, a cache of positive capacity
    that is within its capacity stays within it. *)
Theorem without_ttl_size_within_capacity
        (R : eviction.Policy K → gset K → Prop) c h :
  contract R → exact R c → Forall (writesNoTTL c) h →
  0 < cache.capacity c → cache.Size c ≤ cache.capacity c →
  cache.Size (cache.run h c) ≤ cache.capacity c.
Proof.
  intros HR Hc Hh Hpos Hle.
  destruct (exact_run R HR h c Hh Hc) as [_ Hbd].
  destruct Hbd as [_ Hle']; [done|].
  destruct (sameSetup_run h c) as (Hcap & _). by rewrite <- Hcap.
Qed.

Lemma purged_not_fresh now key (d : gmap K (storage.Item V)) :
  cache.fresh now (d !! key) = false → purged now key d !! key = None.
Proof.
  unfold purged. destruct (d !! key) as [item|] eqn:Hk; [|done].
  simpl. destruct (storage.IsExpired now item); [|done].
  intros _. apply lookup_delete_eq.
Qed.

(** A write that finds the store full, and for which the policy hands out
    a victim the store no longer holds, evicts nothing: the store ends up
    with one entry more than it had, above the capacity. *)
Theorem stale_victim_overflows now key value ttl c victim :
  let d := purged now key (storage.data (cache.storage c)) in
  cache.fresh now (storage.data (cache.storage c) !! key) = false →
  Z.of_nat (size d) >= cache.capacity c →
  (eviction.Evict (cache.policy c)).1 = Some victim →
  d !! victim = None →
  cache.Size (cache.SetWithTTL now key value ttl c).2 = Z.of_nat (size d) + 1 ∧
  cache.capacity c < cache.Size (cache.SetWithTTL now key value ttl c).2.
Proof.
  intros d Hfresh Hfull Hev Hgone.
  rewrite SetWithTTL_written. cbn [snd].
  destruct (written_stale_victim now key
              (storage.SetTTL now (clamp c ttl) (storage.newItem value))
              c victim Hfresh Hfull Hev Hgone) as [Hdata _].
  unfold cache.Size, storage.Size. rewrite Hdata. fold d.
  rewrite map_size_insert_None by by apply purged_not_fresh. lia.
Qed.
End histories.

(** ** Fresh caches *)

Section fresh_caches.
Context {K : Type} `{Countable K} {V : Type}.
Local Open Scope Z_scope.
Implicit Types (c : cache.cache K V) (opts : list (cache.Option_ K V)).

(** The options that leave the store and the policy to [New]. *)
Inductive setting : cache.Option_ K V → Prop :=
| setting_capacity n : setting (cache.WithCapacity n)
| setting_thread_safety b : setting (cache.WithThreadSafety b)
| setting_default_ttl d : setting (cache.WithDefaultTTL d)
| setting_max_ttl d : setting (cache.WithMaxTTL d).

Lemma configure_settings opts :
  Forall setting opts →
  0 < cache.Capacity (cache.configure opts) ∧
  cache.EvictionPolicy (cache.configure opts) = None ∧
  cache.Storage (cache.configure opts) = None.
Proof.
  unfold cache.configure.
  assert (∀ cfg : cache.Config K V,
            0 < cache.Capacity cfg ∧ cache.EvictionPolicy cfg = None ∧
            cache.Storage cfg = None →
            Forall setting opts →
            let cfg' := foldl (λ cfg opt, opt cfg) cfg opts in
            0 < cache.Capacity cfg' ∧ cache.EvictionPolicy cfg' = None ∧
            cache.Storage cfg' = None) as Hfold.
  { induction opts as [|opt opts IH]; intros cfg Hcfg Hopts; [done|].
    apply Forall_cons in Hopts as [Hopt Hopts]. cbn [foldl].
    apply IH; [|done]. destruct Hcfg as (Hcap & Hpol & Hst).
    destruct Hopt; cbn; repeat split; try done.
    case_bool_decide; lia. }
  intros Hopts. by apply Hfold.
Qed.

Lemma exact_coherent (R : eviction.Policy K → gset K → Prop) c :
  exact R c → coherent R c.
Proof. intros [_ HS]. by exists (storeKeys c). Qed.

(** A cache built from settings alone is empty, has a positive capacity,
    counters at zero and an LRU policy that tracks nothing. *)
Theorem New_is_empty opts :
  Forall setting opts →
  let c := cache.New opts in
  storage.data (cache.storage c) = ∅ ∧
  cache.Size c = 0 ∧
  0 < cache.capacity c ∧
  cache.capacity c = cache.Capacity (cache.configure opts) ∧
  counters c = (0, 0, 0) ∧
  eviction.Size (cache.policy c) = 0 ∧
  exact tracksLRU c.
Proof.
  intros Hopts c. destruct (configure_settings opts Hopts) as (Hcap & Hpol & Hst).
  assert (c = cache.mkCache
                (storage.mkStorage ∅ (cache.ThreadSafe (cache.configure opts)))
                (eviction.ofLRU
                   (eviction.lru.NewLRUWithConfig
                      (cache.Capacity (cache.configure opts))
                      (cache.ThreadSafe (cache.configure opts))))
                (cache.Capacity (cache.configure opts))
                (cache.DefaultTTL (cache.configure opts))
                (cache.MaxTTL (cache.configure opts)) 0 0 0
                (cache.ThreadSafe (cache.configure opts))
                (if bool_decide (cache.DefaultTTL (cache.configure opts) > 0)
                 then Some (cache.cleanupInterval
                              (cache.DefaultTTL (cache.configure opts)))
                 else None) cache.Open) as Hc.
  { subst c. unfold cache.New. rewrite Hpol, Hst.
    unfold storage.Reserve, storage.NewMemoryStorageWithConfig.
    by repeat case_bool_decide. }
  clearbody c. rewrite Hc. clear c Hc.
  split; [done|].
  split; [unfold cache.Size, storage.Size; cbn; by rewrite map_size_empty|].
  split; [done|]. split; [done|]. split; [done|].
  split; [done|].
  split.
  - intros key item. cbn. by rewrite lookup_empty.
  - unfold storeKeys. cbn. rewrite dom_empty_L.
    eexists. split; [done|]. split; [done|]. apply linked_empty.
Qed.
End fresh_caches.

(** A history without TTLs on a cache of capacity 2: three writes, a read,
    a delete and a tick of the sweeper. *)
Definition plainHistory : list (Z * cache.Event string string) :=
  [(0%Z, cache.Call (cache.OpSet "a" "x"));
   (1%Z, cache.Call (cache.OpSet "b" "y"));
   (2%Z, cache.Call (cache.OpGet "a"));
   (3%Z, cache.Call (cache.OpSet "c" "z"));
   (4%Z, cache.Call (cache.OpDelete "a"));
   (5%Z, cache.Tick)].

Lemma New_is_empty_witness :
  cache.Size (cache.New (K:=string) (V:=string) [cache.WithCapacity (-1)]) = 0%Z ∧
  cache.capacity (cache.New (K:=string) (V:=string) [cache.WithCapacity (-1)])
  = 100%Z.
Proof.
  destruct (New_is_empty (K:=string) (V:=string) [cache.WithCapacity (-1)])
    as (_ & Hsize & _ & Hcap & _).
  - repeat constructor.
  - split; [exact Hsize|exact Hcap].
Defined.

Lemma capacity2_exact :
  exact tracksLRU (cache.New (K:=string) (V:=string) [cache.WithCapacity 2]).
Proof.
  rewrite New_lruCache by done. split.
  - intros key item. cbn. by rewrite lookup_empty.
  - unfold storeKeys. cbn. rewrite dom_empty_L.
    eexists. split; [done|]. split; [done|]. apply linked_empty.
Qed.

Lemma store_keys_stay_tracked_witness :
  (cache.Size (cache.run (cache.calls staleHistory)
                         (cache.New [cache.WithCapacity 2]))
   ≤ eviction.Size
       (cache.policy (cache.run (cache.calls staleHistory)
                                (cache.New [cache.WithCapacity 2]))))%Z.
Proof.
  apply (store_keys_stay_tracked tracksLRU
           (cache.New [cache.WithCapacity 2]) (cache.calls staleHistory)).
  - apply lru_contract.
  - apply exact_coherent, capacity2_exact.
Defined.

Lemma plainHistory_writesNoTTL :
  Forall (writesNoTTL (cache.New (K:=string) (V:=string) [cache.WithCapacity 2]))
         plainHistory.
Proof. repeat constructor. Qed.

Lemma without_ttl_policy_tracks_store_witness :
  eviction.Size
    (cache.policy (cache.run plainHistory (cache.New [cache.WithCapacity 2])))
  = cache.Size (cache.run plainHistory (cache.New [cache.WithCapacity 2])).
Proof.
  apply (without_ttl_policy_tracks_store tracksLRU
           (cache.New [cache.WithCapacity 2]) plainHistory).
  - apply lru_contract.
  - apply capacity2_exact.
  - apply plainHistory_writesNoTTL.
Defined.

Lemma without_ttl_size_within_capacity_witness :
  (cache.Size (cache.run plainHistory (cache.New [cache.WithCapacity 2]))
   ≤ cache.capacity (cache.New (K:=string) (V:=string) [cache.WithCapacity 2]))%Z.
Proof.
  apply (without_ttl_size_within_capacity tracksLRU
           (cache.New [cache.WithCapacity 2]) plainHistory).
  - apply lru_contract.
  - apply capacity2_exact.
  - apply plainHistory_writesNoTTL.
  - reflexivity.
  - vm_compute. discriminate.
Defined.

Lemma stale_victim_overflows_witness :
  (cache.capacity staleVictim
   < cache.Size (cache.SetWithTTL 5 "d" "w" 0 staleVictim).2)%Z.
Proof.
  apply (stale_victim_overflows 5%Z "d" "w" 0%Z staleVictim "a").
  - reflexivity.
  - vm_compute. discriminate.
  - reflexivity.
  - reflexivity.
Defined.

(** ** Single calls *)

Section single_calls.
Context {K : Type} `{Countable K} {V : Type}.
Local Open Scope Z_scope.
Implicit Types (c : cache.cache K V) (key : K) (now : Z).

Lemma clamp_min c ttl : clamp c ttl = Z.min ttl (cache.maxTTL c).
Proof. unfold clamp. case_bool_decide; lia. Qed.

(** An entry written with a positive TTL, the smaller of the TTL asked for
    and the maximal TTL, is found by [Get] up to and including the instant
    of the write plus that TTL, and not found after it. *)
Theorem positive_ttl_expiry now now' key value ttl c :
  0 < Z.min ttl (cache.maxTTL c) →
  let c1 := (cache.SetWithTTL now key value ttl c).2 in
  (now' ≤ now + Z.min ttl (cache.maxTTL c) →
   (cache.Get now' key c1).1 = Some value) ∧
  (now + Z.min ttl (cache.maxTTL c) < now' →
   (cache.Get now' key c1).1 = None).
Proof.
  intros Hpos c1.
  assert (storage.data (cache.storage c1) !! key =
          Some (storage.mkItem value (now + Z.min ttl (cache.maxTTL c)) true))
    as Hk.
  { subst c1. rewrite SetWithTTL_written. cbn [snd].
    rewrite written_lookup, clamp_min. unfold storage.SetTTL.
    by rewrite bool_decide_eq_true_2 by lia. }
  split; intros Hnow.
  - rewrite (Get_live now' key c1 _ Hk); [done|].
    unfold storage.IsExpired. cbn. apply Z.ltb_ge. lia.
  - rewrite (Get_expired now' key c1 _ Hk); [done|].
    unfold storage.IsExpired. cbn. apply Z.ltb_lt. lia.
Qed.

(** A write to a key whose entry is live replaces the entry in place: no
    victim is asked for even when the store is full, the size of the store
    and the counters stay as they are, and the policy sees one access. *)
Theorem update_in_place now key value ttl c item :
  storage.data (cache.storage c) !! key = Some item →
  storage.IsExpired now item = false →
  let c' := (cache.SetWithTTL now key value ttl c).2 in
  storage.data (cache.storage c') =
    <[key := storage.SetTTL now (clamp c ttl) (storage.newItem value)]>
      (storage.data (cache.storage c)) ∧
  cache.Size c' = cache.Size c ∧
  counters c' = counters c ∧
  cache.policy c' = eviction.Access key (cache.policy c).
Proof.
  intros Hk Hx c'. subst c'. rewrite SetWithTTL_written. cbn [snd].
  unfold written, purged. rewrite Hk. cbn [cache.fresh]. rewrite Hx.
  cbn [negb]. unfold with_map, cache.Size, storage.Size. cbn.
  repeat split. rewrite map_size_insert_Some; [done|]. eauto.
Qed.

(** [Delete] answers true exactly when the key is in the store's map,
    whether its entry is expired or not; it removes the entry and leaves
    the counters alone.  A second [Delete] of the key answers false and
    changes nothing, and [Contains] does not find the key. *)
Theorem Delete_removes key c :
  let c' := (cache.Delete key c).2 in
  (cache.Delete key c).1 =
    bool_decide (is_Some (storage.data (cache.storage c) !! key)) ∧
  storage.data (cache.storage c') = delete key (storage.data (cache.storage c)) ∧
  counters c' = counters c ∧
  cache.Delete key c' = (false, c') ∧
  ∀ now, (cache.Contains now key c').1 = false.
Proof.
  intros c'.
  assert (storage.data (cache.storage c') =
          delete key (storage.data (cache.storage c))) as Hdata.
  { subst c'. rewrite Delete_snd. case_bool_decide as Hk; [done|].
    rewrite delete_id; [done|].
    destruct (storage.data (cache.storage c) !! key) eqn:E; [|done].
    destruct Hk. eauto. }
  split; [|split; [done|split; [|split]]].
  - unfold cache.Delete, storage.Delete.
    destruct (storage.data (cache.storage c) !! key) eqn:E.
    + by rewrite bool_decide_eq_true_2 by eauto.
    + rewrite bool_decide_eq_false_2; [done|]. by intros [? ?].
  - subst c'. rewrite Delete_snd. by case_bool_decide.
  - unfold cache.Delete, storage.Delete.
    rewrite Hdata, lookup_delete_eq. by rewrite set_storage_same.
  - intros now. by rewrite Contains_unfold, Hdata, lookup_delete_eq.
Qed.

(** At one instant [Contains] and [Get] agree: [Contains] answers true
    exactly when [Get] finds a value, the value of the live entry, and a
    [Get] that follows a [Contains] finds what it would have found. *)
Theorem Contains_agrees_with_Get now key c :
  (cache.Contains now key c).1 = isLive now c key ∧
  (cache.Get now key c).1 = liveValue now c key ∧
  (cache.Get now key (cache.Contains now key c).2).1 = (cache.Get now key c).1.
Proof.
  unfold isLive, liveValue. rewrite Contains_unfold.
  destruct (storage.data (cache.storage c) !! key) as [item|] eqn:Hk.
  - destruct (storage.IsExpired now item) eqn:Hx.
    + erewrite (Get_expired _ _ c) by done.
      rewrite Get_absent; [done|]. cbn. apply lookup_delete_eq.
    + cbn [fst snd]. by rewrite (Get_live now key c item Hk Hx).
  - cbn [fst snd]. by rewrite (Get_absent now key c Hk).
Qed.

(** [Keys] lists every key of the store once: its length is [Size]. *)
Theorem Keys_lists_each_key_once c :
  NoDup (cache.Keys c) ∧ Z.of_nat (length (cache.Keys c)) = cache.Size c.
Proof.
  unfold cache.Keys, storage.Keys, cache.Size, storage.Size. split.
  - apply NoDup_fst_map_to_list.
  - by rewrite length_fmap, length_map_to_list.
Qed.
End single_calls.

Lemma positive_ttl_expiry_witness :
  (cache.Get 10 "k"
     (cache.SetWithTTL 0 "k" "v" 10 (cache.New (K:=string) (V:=string) [])).2).1
  = Some "v" ∧
  (cache.Get 11 "k"
     (cache.SetWithTTL 0 "k" "v" 10 (cache.New (K:=string) (V:=string) [])).2).1
  = None.
Proof.
  split.
  - apply (proj1 (positive_ttl_expiry 0 10 "k" "v" 10 (cache.New [])
                    eq_refl)).
    vm_compute. discriminate.
  - apply (proj2 (positive_ttl_expiry 0 11 "k" "v" 10 (cache.New [])
                    eq_refl)).
    reflexivity.
Defined.

Lemma update_in_place_witness :
  cache.Size (cache.SetWithTTL 5 "b" "new" 0 staleVictim).2 =
  cache.Size staleVictim.
Proof.
  apply (update_in_place 5%Z "b" "new" 0%Z staleVictim (plain "y")).
  - vm_compute. reflexivity.
  - reflexivity.
Defined.

(** ** Batches, [Clear] and the sweeper's tick *)

Section batches.
Context {K : Type} `{Countable K} {V : Type}.
Local Open Scope Z_scope.
Implicit Types (c : cache.cache K V) (key : K) (now : Z).

Lemma setBatchLoop_as_Set now (acc : Z * cache.cache K V) (kv : K * V) :
  cache.defaultTTL acc.2 ≤ cache.maxTTL acc.2 →
  cache.setBatchLoop now acc kv =
  (acc.1 + 1, (cache.Set_ now kv.1 kv.2 acc.2).2).
Proof.
  intros Hle. unfold cache.setBatchLoop, cache.Set_.
  rewrite setBatchItem_written, SetWithTTL_written. unfold clamp.
  by rewrite bool_decide_eq_false_2 by lia.
Qed.

Lemma SetBatch_count_fold now items (acc : Z * cache.cache K V) :
  (foldl (cache.setBatchLoop now) acc items).1 =
  acc.1 + Z.of_nat (length items).
Proof.
  revert acc. induction items as [|kv items IH]; intros acc.
  - cbn. lia.
  - cbn [foldl length]. rewrite IH. unfold cache.setBatchLoop.
    rewrite setBatchItem_written. cbn. lia.
Qed.

(** [SetBatch] returns the number of pairs it was given.  When the default
    TTL does not exceed the maximal TTL it leaves the cache as the [Set]s of
    the pairs, made one after the other in the order of the loop, leave it.
    The entry of the pair the loop visits last carries the default TTL as it
    is, whatever the maximal TTL. *)
Theorem SetBatch_is_a_sequence_of_sets now items c :
  (cache.SetBatch now items c).1 = Z.of_nat (length items) ∧
  (cache.defaultTTL c ≤ cache.maxTTL c →
   (cache.SetBatch now items c).2 =
   foldl (λ c kv, (cache.Set_ now kv.1 kv.2 c).2) c items) ∧
  (∀ l key value,
     items = l ++ [(key, value)] →
     storage.data (cache.storage (cache.SetBatch now items c).2) !! key =
     Some (storage.SetTTL now (cache.defaultTTL c) (storage.newItem value))).
Proof.
  unfold cache.SetBatch. split; [|split].
  - by rewrite SetBatch_count_fold.
  - intros Hle. generalize 0 as n. revert c Hle.
    induction items as [|kv items IH]; intros c Hle n; [done|].
    cbn [foldl]. rewrite setBatchLoop_as_Set by done. cbn [fst snd].
    apply IH.
    destruct (sameSetup_SetWithTTL now kv.1 kv.2 (cache.defaultTTL c) c)
      as (_ & Hd & Hm & _).
    unfold cache.Set_. by rewrite Hd, Hm.
  - intros l key value ->. rewrite foldl_app. cbn [foldl].
    unfold cache.setBatchLoop at 1. rewrite setBatchItem_written.
    cbn [fst snd]. rewrite written_lookup.
    pose proof (sameSetup_SetBatch now l c) as (_ & Hd & _).
    unfold cache.SetBatch in Hd. by rewrite Hd.
Qed.

Lemma DeleteBatch_fold keys (acc : Z * cache.cache K V) :
  let out := foldl cache.deleteBatchLoop acc keys in
  out.1 - acc.1 = cache.Size acc.2 - cache.Size out.2 ∧
  (∀ key, storage.data (cache.storage out.2) !! key =
          if decide (key ∈ keys) then None
          else storage.data (cache.storage acc.2) !! key) ∧
  counters out.2 = counters acc.2.
Proof.
  revert acc. induction keys as [|key0 keys IH]; intros acc out.
  - subst out. cbn [foldl]. split; [lia|]. split; [|done].
    intros key. rewrite decide_False; [done|]. apply not_elem_of_nil.
  - subst out. cbn [foldl].
    destruct (IH (cache.deleteBatchLoop acc key0)) as (Hn & Hd & Hc).
    assert (let acc' := cache.deleteBatchLoop acc key0 in
            acc'.1 - acc.1 = cache.Size acc.2 - cache.Size acc'.2 ∧
            storage.data (cache.storage acc'.2) =
              delete key0 (storage.data (cache.storage acc.2)) ∧
            counters acc'.2 = counters acc.2) as (Hn0 & Hd0 & Hc0).
    { unfold cache.deleteBatchLoop, storage.Delete, cache.Size, storage.Size.
      destruct (storage.data (cache.storage acc.2) !! key0) eqn:Hk; cbn.
      - rewrite map_size_delete, Hk.
        assert (size (storage.data (cache.storage acc.2)) ≠ 0%nat).
        { intros Hz%map_size_empty_inv. rewrite Hz in Hk.
          by rewrite lookup_empty in Hk. }
        split; [lia|done].
      - rewrite delete_id by done. split; [lia|done]. }
    split; [lia|]. split; [|congruence].
    intros key. rewrite Hd, Hd0.
    destruct (decide (key = key0)) as [->|Hne].
    + rewrite lookup_delete_eq.
      rewrite (decide_True (P:=key0 ∈ key0 :: keys)) by apply list_elem_of_here.
      by case_decide.
    + rewrite lookup_delete_ne by done.
      destruct (decide (key ∈ keys)) as [Hin|Hin].
      * rewrite decide_True; [done|]. by apply list_elem_of_further.
      * rewrite decide_False; [done|].
        rewrite elem_of_cons. intros [?|?]; done.
Qed.

(** [DeleteBatch] returns the number of entries it removed, the difference
    of the sizes before and after: a key that is absent, or that occurs a
    second time in the list, counts for nothing.  No key of the list is left
    in the store, every other entry is, and the counters stay as they are. *)
Theorem DeleteBatch_counts_removals keys c :
  let out := cache.DeleteBatch keys c in
  out.1 = cache.Size c - cache.Size out.2 ∧
  (∀ key, storage.data (cache.storage out.2) !! key =
          if decide (key ∈ keys) then None
          else storage.data (cache.storage c) !! key) ∧
  counters out.2 = counters c.
Proof.
  intros out. destruct (DeleteBatch_fold keys (0, c)) as (Hn & Hd & Hc).
  fold (cache.DeleteBatch keys c) in Hn, Hd, Hc. fold out in Hn, Hd, Hc.
  cbn [fst snd] in *. split; [lia|done].
Qed.

Lemma size_filter_expired now (d : gmap K (storage.Item V)) :
  (size (filter (λ kv, storage.IsExpired now kv.2 = true) d) +
   size (filter (λ kv, storage.IsExpired now kv.2 = false) d))%nat = size d.
Proof.
  rewrite <- (map_filter_union_complement
                (λ kv, storage.IsExpired now kv.2 = true) d) at 3.
  rewrite map_size_disj_union by apply map_disjoint_filter_complement.
  f_equal. f_equal. apply map_filter_ext. intros key item _. cbn.
  by destruct (storage.IsExpired now item).
Qed.

(** A tick of the sweeper removes from the store exactly the entries that
    are expired at that instant, as many as [CleanupExpired] reports, and
    leaves every other entry, the policy and the counters as they are. *)
Theorem cleanup_removes_the_expired now c :
  let c' := cache.cleanup now c in
  (∀ key, storage.data (cache.storage c') !! key =
          match storage.data (cache.storage c) !! key with
          | Some item =>
            if storage.IsExpired now item then None else Some item
          | None => None
          end) ∧
  (storage.CleanupExpired now (cache.storage c)).1 =
    cache.Size c - cache.Size c' ∧
  cache.policy c' = cache.policy c ∧
  counters c' = counters c.
Proof.
  intros c'. subst c'. unfold cache.cleanup, storage.CleanupExpired.
  cbn [fst snd]. split; [|split; [|done]].
  - intros key. cbn. rewrite map_lookup_filter.
    destruct (storage.data (cache.storage c) !! key) as [item|]; [|done].
    cbn. destruct (storage.IsExpired now item).
    + by rewrite option_guard_False.
    + by rewrite option_guard_True.
  - unfold cache.Size, storage.Size. cbn.
    pose proof (size_filter_expired now (storage.data (cache.storage c))).
    lia.
Qed.

(** [Clear] empties the store and the policy and puts the three counters
    back to zero; the capacity, the TTLs and the sweeper are left alone. *)
Theorem Clear_empties (R : eviction.Policy K → gset K → Prop) c S :
  contract R → R (cache.policy c) S →
  let c' := cache.Clear c in
  cache.Size c' = 0 ∧ cache.Keys c' = [] ∧
  eviction.Size (cache.policy c') = 0 ∧
  counters c' = (0, 0, 0) ∧ sameSetup c c'.
Proof.
  intros HR HS c'. subst c'. unfold cache.Clear, cache.Size, cache.Keys.
  cbn. split; [|split; [|split; [|split]]].
  - unfold storage.Size. cbn. by rewrite map_size_empty.
  - unfold storage.Keys. cbn. by rewrite map_to_list_empty.
  - rewrite (contract_size R HR _ ∅); [by rewrite size_empty|].
    by eapply HR.
  - done.
  - by repeat split.
Qed.
End batches.

Lemma SetBatch_is_a_sequence_of_sets_witness :
  (cache.SetBatch 0 [("a", "x"); ("b", "y")]
                  (cache.New (K:=string) (V:=string) [cache.WithCapacity 2])).2
  = foldl (λ c kv, (cache.Set_ 0 kv.1 kv.2 c).2)
          (cache.New [cache.WithCapacity 2]) [("a", "x"); ("b", "y")] ∧
  storage.data
    (cache.storage
       (cache.SetBatch 0 [("a", "x"); ("b", "y")]
          (cache.New (K:=string) (V:=string) [cache.WithCapacity 2])).2)
    !! "b" = Some (plain "y").
Proof.
  destruct (SetBatch_is_a_sequence_of_sets 0 [("a", "x"); ("b", "y")]
              (cache.New (K:=string) (V:=string) [cache.WithCapacity 2]))
    as (_ & Hsets & Hlast).
  split.
  - apply Hsets. vm_compute. discriminate.
  - apply (Hlast [("a", "x")] "b" "y"). reflexivity.
Defined.

Lemma Clear_empties_witness :
  cache.Size (cache.Clear staleVictim) = 0%Z ∧
  cache.Keys (cache.Clear staleVictim) = [] ∧
  eviction.Size (cache.policy (cache.Clear staleVictim)) = 0%Z ∧
  counters (cache.Clear staleVictim) = (0%Z, 0%Z, 0%Z) ∧
  sameSetup staleVictim (cache.Clear staleVictim).
Proof.
  destruct (coherent_run tracksLRU lru_contract (cache.calls staleHistory)
              (cache.New [cache.WithCapacity 2])
              (exact_coherent _ _ capacity2_exact))
    as (S & HS & _).
  exact (Clear_empties tracksLRU staleVictim S lru_contract HS).
Defined.

(** ** The order in which the built-in policies evict *)

Section eviction_order.
Context {K : Type} `{Countable K}.
Local Open Scope Z_scope.
Implicit Types (key : K) (l : list K).

(** The policy after the accesses [l], made from left to right. *)
Definition lruAccessed l (p : eviction.lru.lruPolicy K) :=
  foldl (λ p key, eviction.lru.Access key p) p l.

Definition fifoAccessed l (p : eviction.fifo.fifoPolicy K) :=
  foldl (λ p key, eviction.fifo.Access key p) p l.

Definition lifoAccessed l (p : eviction.lifo.lifoPolicy K) :=
  foldl (λ p key, eviction.lifo.Access key p) p l.

Lemma remove_node_absent key l : key ∉ l → eviction.remove_node key l = l.
Proof.
  induction l as [|x l IH]; intros Hk; [done|]. cbn.
  apply not_elem_of_cons in Hk as [Hne Hk].
  rewrite decide_False by done. by rewrite IH.
Qed.

Lemma remove_node_app_l key l1 l2 :
  key ∈ l1 →
  eviction.remove_node key (l1 ++ l2) = eviction.remove_node key l1 ++ l2.
Proof.
  induction l1 as [|x l1 IH]; intros Hk; [by apply not_elem_of_nil in Hk|].
  cbn. destruct (decide (x = key)); [done|].
  apply elem_of_cons in Hk as [->|Hk]; [done|]. by rewrite IH.
Qed.

Lemma remove_node_app_r key l1 l2 :
  key ∉ l1 →
  eviction.remove_node key (l1 ++ l2) = l1 ++ eviction.remove_node key l2.
Proof.
  induction l1 as [|x l1 IH]; intros Hk; [done|]. cbn.
  apply not_elem_of_cons in Hk as [Hne Hk].
  rewrite decide_False by done. by rewrite IH.
Qed.

Lemma remove_node_reverse key l :
  NoDup l →
  eviction.remove_node key (reverse l) = reverse (eviction.remove_node key l).
Proof.
  induction l as [|x l IH]; intros Hnd; [done|].
  apply NoDup_cons in Hnd as [Hx Hnd]. rewrite reverse_cons.
  cbn [eviction.remove_node].
  destruct (decide (x = key)) as [->|Hne].
  - rewrite remove_node_app_r by by rewrite elem_of_reverse.
    cbn [eviction.remove_node]. rewrite decide_True by done.
    by rewrite app_nil_r.
  - rewrite reverse_cons, <- IH by done.
    destruct (decide (key ∈ l)) as [Hin|Hin].
    + by rewrite remove_node_app_l by by rewrite elem_of_reverse.
    + rewrite remove_node_app_r by by rewrite elem_of_reverse.
      cbn [eviction.remove_node]. rewrite decide_False by done.
      by rewrite remove_node_absent by by rewrite elem_of_reverse.
Qed.

Lemma remove_dups_snoc key l :
  remove_dups (l ++ [key]) =
  eviction.remove_node key (remove_dups l) ++ [key].
Proof.
  induction l as [|x l IH]; [done|]. cbn [app remove_dups].
  destruct (decide_rel elem_of x (l ++ [key])) as [Hin1|Hin1];
    destruct (decide_rel elem_of x l) as [Hin2|Hin2].
  - by rewrite IH.
  - assert (x = key) as ->.
    { rewrite elem_of_app, list_elem_of_singleton in Hin1. tauto. }
    rewrite IH. cbn [eviction.remove_node]. rewrite decide_True by done.
    by rewrite remove_node_absent by by rewrite elem_of_remove_dups.
  - exfalso. apply Hin1. rewrite elem_of_app. auto.
  - assert (x ≠ key) as Hne.
    { intros ->. apply Hin1. rewrite elem_of_app, list_elem_of_singleton. auto. }
    cbn [eviction.remove_node]. rewrite decide_False by done. by rewrite IH.
Qed.

Lemma last_remove_dups l : last (remove_dups l) = last l.
Proof.
  induction l as [|x l IH]; [done|]. cbn [remove_dups].
  destruct (decide_rel elem_of x l) as [Hin|Hin].
  - rewrite IH. destruct l as [|y l]; [by apply not_elem_of_nil in Hin|done].
  - destruct l as [|y l]; [done|].
    rewrite last_cons_cons, <- IH.
    destruct (remove_dups (y :: l)) as [|z r] eqn:Hr; [|done].
    assert (y ∈ remove_dups (y :: l)) as Hy
      by (rewrite elem_of_remove_dups; apply list_elem_of_here).
    rewrite Hr in Hy. by apply not_elem_of_nil in Hy.
Qed.

Lemma lruAccessed_state l cap ts :
  let p := lruAccessed l (eviction.lru.NewLRUWithConfig cap ts) in
  eviction.lru.order p = reverse (remove_dups l) ∧
  eviction.lru.items p = list_to_set l.
Proof.
  induction l as [|key l IH] using rev_ind; [done|].
  cbn zeta in *. destruct IH as [Ho Hi].
  unfold lruAccessed. rewrite foldl_snoc.
  fold (lruAccessed l (eviction.lru.NewLRUWithConfig cap ts)).
  set (q := lruAccessed l (eviction.lru.NewLRUWithConfig cap ts)) in *.
  unfold eviction.lru.Access.
  rewrite Hi, Ho, remove_dups_snoc, reverse_snoc, list_to_set_app_L.
  destruct (decide (key ∈ list_to_set l)) as [Hin|Hin]; cbn.
  - rewrite remove_node_reverse by apply NoDup_remove_dups.
    split; [done|]. set_solver.
  - rewrite elem_of_list_to_set in Hin.
    rewrite remove_node_absent by by rewrite elem_of_remove_dups.
    split; [done|]. set_solver.
Qed.

(** After any accesses, the LRU order list holds each accessed key once,
    the most recently accessed first, and [Evict] returns the key whose
    last access is the oldest; it returns nothing when no key was accessed. *)
Theorem lru_evicts_oldest_last_access l cap ts :
  let p := lruAccessed l (eviction.lru.NewLRUWithConfig cap ts) in
  eviction.lru.order p = reverse (remove_dups l) ∧
  (eviction.lru.Evict p).1 = head (remove_dups l) ∧
  eviction.lru.Size p = Z.of_nat (length (remove_dups l)).
Proof.
  intros p. destruct (lruAccessed_state l cap ts) as [Ho Hi]. fold p in Ho, Hi.
  split; [done|]. split.
  - unfold eviction.lru.Evict. rewrite Ho, last_reverse.
    destruct (remove_dups l) as [|x r]; [done|].
    rewrite bool_decide_eq_false_2; [done|].
    rewrite length_reverse. done.
  - unfold eviction.lru.Size. rewrite Hi.
    assert (list_to_set l =@{gset K} list_to_set (remove_dups l)) as ->.
    { apply set_eq. intros key.
      by rewrite !elem_of_list_to_set, elem_of_remove_dups. }
    by rewrite size_list_to_set by apply NoDup_remove_dups.
Qed.

Lemma fifoAccessed_state l cap ts :
  let p := fifoAccessed l (eviction.fifo.NewFIFOWithConfig cap ts) in
  eviction.fifo.order p = reverse (remove_dups (reverse l)) ∧
  eviction.fifo.items p = list_to_set l.
Proof.
  induction l as [|key l IH] using rev_ind; [done|].
  cbn zeta in *. destruct IH as [Ho Hi].
  unfold fifoAccessed. rewrite foldl_snoc.
  fold (fifoAccessed l (eviction.fifo.NewFIFOWithConfig cap ts)).
  set (q := fifoAccessed l (eviction.fifo.NewFIFOWithConfig cap ts)) in *.
  unfold eviction.fifo.Access.
  rewrite Hi, reverse_snoc, list_to_set_app_L. cbn [remove_dups].
  destruct (decide (key ∈ list_to_set l)) as [Hin|Hin];
    destruct (decide_rel elem_of key (reverse l)) as [Hin'|Hin'];
    rewrite elem_of_list_to_set in Hin; rewrite elem_of_reverse in Hin';
    try done; unfold eviction.fifo.upd;
    cbn [eviction.fifo.order eviction.fifo.items].
  - split; [done|]. set_solver.
  - rewrite reverse_cons, Ho. split; [done|]. set_solver.
Qed.

(** After any accesses, the FIFO order list holds each accessed key once,
    in the order of the first accesses, and [Evict] returns the key that
    was accessed first of all: accessing a key again does not save it. *)
Theorem fifo_evicts_first_access l cap ts :
  let p := fifoAccessed l (eviction.fifo.NewFIFOWithConfig cap ts) in
  eviction.fifo.order p = reverse (remove_dups (reverse l)) ∧
  (eviction.fifo.Evict p).1 = head l.
Proof.
  intros p. destruct (fifoAccessed_state l cap ts) as [Ho Hi]. fold p in Ho, Hi.
  split; [done|].
  assert (head (eviction.fifo.order p) = head l) as Hhead.
  { by rewrite Ho, head_reverse, last_remove_dups, last_reverse. }
  unfold eviction.fifo.Evict.
  destruct (eviction.fifo.order p) as [|x r].
  - by rewrite bool_decide_eq_true_2.
  - by rewrite bool_decide_eq_false_2.
Qed.

Lemma lifoAccessed_state l cap ts :
  let p := lifoAccessed l (eviction.lifo.NewLIFOWithConfig cap ts) in
  eviction.lifo.order p = reverse (remove_dups (reverse l)) ∧
  eviction.lifo.items p = list_to_set l.
Proof.
  induction l as [|key l IH] using rev_ind; [done|].
  cbn zeta in *. destruct IH as [Ho Hi].
  unfold lifoAccessed. rewrite foldl_snoc.
  fold (lifoAccessed l (eviction.lifo.NewLIFOWithConfig cap ts)).
  set (q := lifoAccessed l (eviction.lifo.NewLIFOWithConfig cap ts)) in *.
  unfold eviction.lifo.Access.
  rewrite Hi, reverse_snoc, list_to_set_app_L. cbn [remove_dups].
  destruct (decide (key ∈ list_to_set l)) as [Hin|Hin];
    destruct (decide_rel elem_of key (reverse l)) as [Hin'|Hin'];
    rewrite elem_of_list_to_set in Hin; rewrite elem_of_reverse in Hin';
    try done; unfold eviction.lifo.upd;
    cbn [eviction.lifo.order eviction.lifo.items].
  - split; [done|]. set_solver.
  - rewrite reverse_cons, Ho. split; [done|]. set_solver.
Qed.

(** After any accesses, [Evict] of the LIFO policy returns the key whose
    first access is the most recent: the newest key, however often older
    keys were accessed again since. *)
Theorem lifo_evicts_newest_key l cap ts :
  let p := lifoAccessed l (eviction.lifo.NewLIFOWithConfig cap ts) in
  eviction.lifo.order p = reverse (remove_dups (reverse l)) ∧
  (eviction.lifo.Evict p).1 = head (remove_dups (reverse l)).
Proof.
  intros p. destruct (lifoAccessed_state l cap ts) as [Ho Hi]. fold p in Ho, Hi.
  split; [done|].
  unfold eviction.lifo.Evict. rewrite Ho, last_reverse.
  destruct (remove_dups (reverse l)) as [|x r]; [done|].
  rewrite bool_decide_eq_false_2; [done|].
  rewrite length_reverse. done.
Qed.
End eviction_order.

(** ** Eviction of a live entry *)

Section live_victims.
Context {K : Type} `{Countable K} {V : Type}.
Context (R : eviction.Policy K → gset K → Prop) (HR : contract R).
Local Open Scope Z_scope.
Implicit Types (c : cache.cache K V) (key : K) (now : Z).

(** When the policy tracks exactly the keys of the store and no entry
    carries a TTL, a write of a new key into a full, non-empty store evicts
    one entry, the one of the victim the policy names: the victim was in the
    store and is gone, every other entry stays, the new entry is in, the
    size is unchanged and [evictions] is incremented once. *)
Theorem full_write_evicts_one now key value ttl c :
  exact R c →
  storage.data (cache.storage c) !! key = None →
  0 < cache.Size c → cache.capacity c ≤ cache.Size c →
  let c' := (cache.SetWithTTL now key value ttl c).2 in
  ∃ victim,
    (eviction.Evict (cache.policy c)).1 = Some victim ∧
    is_Some (storage.data (cache.storage c) !! victim) ∧
    storage.data (cache.storage c') =
      <[key := storage.SetTTL now (clamp c ttl) (storage.newItem value)]>
        (delete victim (storage.data (cache.storage c))) ∧
    cache.Size c' = cache.Size c ∧
    cache.evictions c' = cache.AddInt64 (cache.evictions c) 1 ∧
    cache.policy c' =
      eviction.Access key (eviction.Evict (cache.policy c)).2.
Proof.
  intros [Hno HS] Hk Hpos Hfull c'. subst c'.
  rewrite SetWithTTL_written. cbn [snd]. unfold written.
  rewrite noTTL_purged, Hk by done. cbn [cache.fresh].
  unfold cache.Size, storage.Size in *.
  rewrite bool_decide_eq_true_2 by lia.
  pose proof (contract_evict R HR _ _ HS) as Hev.
  destruct ((eviction.Evict (cache.policy c)).1) as [victim|].
  - destruct Hev as [Hv HS']. unfold storeKeys in Hv.
    apply elem_of_dom in Hv as [vit Hv].
    exists victim. unfold with_map. cbn.
    repeat split; [eauto|].
    rewrite map_size_insert_None
      by (rewrite lookup_delete_ne; [done|congruence]).
    rewrite map_size_delete, Hv. lia.
  - destruct Hev as [Hempty _]. unfold storeKeys in Hempty.
    apply dom_empty_inv_L in Hempty.
    rewrite Hempty, map_size_empty in Hpos. lia.
Qed.
End live_victims.

Lemma full_write_evicts_one_witness :
  cache.Size
    (cache.SetWithTTL 7 "c" "z" 0
       (cache.run (cache.calls [(0%Z, cache.OpSet "a" "x");
                                (1%Z, cache.OpSet "b" "y")])
                  (cache.New [cache.WithCapacity 2]))).2 = 2%Z.
Proof.
  destruct (full_write_evicts_one tracksLRU lru_contract 7 "c" "z" 0
              (cache.run (cache.calls [(0%Z, cache.OpSet "a" "x");
                                       (1%Z, cache.OpSet "b" "y")])
                         (cache.New [cache.WithCapacity 2])))
    as (victim & _ & _ & _ & Hsize & _).
  - apply (exact_run tracksLRU lru_contract); [repeat constructor|].
    apply capacity2_exact.
  - reflexivity.
  - reflexivity.
  - vm_compute. discriminate.
  - exact Hsize.
Defined.

(** ** What a [Get] changes *)

Section get_effect.
Context {K : Type} `{Countable K} {V : Type}.
Local Open Scope Z_scope.
Implicit Types (c : cache.cache K V) (key : K) (now : Z).

Lemma liveValue_purged now key c k :
  liveValue now
    (with_map (purged now key (storage.data (cache.storage c))) c) k =
  liveValue now c k.
Proof.
  unfold liveValue, with_map, purged. cbn.
  destruct (storage.data (cache.storage c) !! key) as [item|] eqn:Hk; [|done].
  destruct (storage.IsExpired now item) eqn:Hx; [|done].
  destruct (decide (k = key)) as [->|Hne].
  - by rewrite lookup_delete_eq, Hk, Hx.
  - by rewrite lookup_delete_ne.
Qed.

(** [Get] returns the value of the entry when it is present and not
    expired, counts one hit and tells the policy of the access; otherwise it
    returns nothing, counts one miss and leaves the policy alone.  It never
    touches [evictions], and what a lookup at the same instant finds for
    any key is the same after the [Get] as before. *)
Theorem Get_counts_one_hit_or_miss now key c :
  let out := cache.Get now key c in
  out.1 = liveValue now c key ∧
  counters out.2 =
    (if isLive now c key
     then (cache.AddInt64 (cache.hits c) 1, cache.misses c, cache.evictions c)
     else (cache.hits c, cache.AddInt64 (cache.misses c) 1, cache.evictions c)) ∧
  cache.policy out.2 =
    (if isLive now c key then eviction.Access key (cache.policy c)
     else cache.policy c) ∧
  ∀ k, liveValue now out.2 k = liveValue now c k.
Proof.
  intros out.
  assert (∀ k, liveValue now out.2 k = liveValue now c k) as Hlive.
  { intros k. subst out. rewrite Get_snd. cbn zeta.
    rewrite <- (liveValue_purged now key c k).
    by destruct (cache.fresh now _). }
  split; [|split; [|split; [|done]]]; subst out; unfold isLive, liveValue.
  - destruct (storage.data (cache.storage c) !! key) as [item|] eqn:Hk.
    + destruct (storage.IsExpired now item) eqn:Hx.
      * by rewrite (Get_expired now key c item Hk Hx).
      * by rewrite (Get_live now key c item Hk Hx).
    + by rewrite (Get_absent now key c Hk).
  - destruct (storage.data (cache.storage c) !! key) as [item|] eqn:Hk.
    + destruct (storage.IsExpired now item) eqn:Hx.
      * by rewrite (Get_expired now key c item Hk Hx).
      * by rewrite (Get_live now key c item Hk Hx).
    + by rewrite (Get_absent now key c Hk).
  - destruct (storage.data (cache.storage c) !! key) as [item|] eqn:Hk.
    + destruct (storage.IsExpired now item) eqn:Hx.
      * by rewrite (Get_expired now key c item Hk Hx).
      * by rewrite (Get_live now key c item Hk Hx).
    + by rewrite (Get_absent now key c Hk).
Qed.
End get_effect.

(** ** The demo's custom policy *)

Section custom_policy.
Context {K : Type} `{Countable K} {V : Type}.
Local Open Scope Z_scope.
Implicit Types (key : K) (l : list K) (S : gset K).

Definition tracksCustom (p : eviction.Policy K) (S : gset K) : Prop :=
  ∃ s, p = demo.ofCustom s ∧ demo.items s = S ∧
       linked (demo.items s) (demo.keys s).


Lemma linked_size S l : linked S l → length l = size S.
Proof.
  intros [Hnd Hl].
  assert (S = list_to_set l) as ->.
  { apply set_eq. intros key. by rewrite elem_of_list_to_set, Hl. }
  by rewrite size_list_to_set.
Qed.

Lemma linked_delete_index S l i key :
  linked S l → l !! i = Some key →
  key ∈ S ∧ linked (S ∖ {[key]}) (take i l ++ drop (Datatypes.S i) l).
Proof.
  intros [Hnd Hl] Hi.
  pose proof (take_drop_middle l i key Hi) as Hmid.
  rewrite <- Hmid in Hnd.
  apply NoDup_app in Hnd as (Hnd1 & Hdisj & Hnd2).
  apply NoDup_cons in Hnd2 as [Hk2 Hnd2].
  split; [apply Hl; by eapply list_elem_of_lookup_2|].
  split.
  - apply NoDup_app. split; [done|]. split; [|done].
    intros x Hx1 Hx2. apply (Hdisj x Hx1). by apply list_elem_of_further.
  - intros x. rewrite elem_of_difference, elem_of_singleton, <- Hl.
    assert (x ∈ l ↔ x ∈ take i l ∨ x = key ∨ x ∈ drop (Datatypes.S i) l)
      as ->.
    { rewrite <- Hmid at 1. by rewrite elem_of_app, elem_of_cons. }
    rewrite elem_of_app. split.
    + intros [Hx|Hx].
      * split; [auto|]. intros ->. apply (Hdisj key Hx), list_elem_of_here.
      * split; [auto|]. by intros ->.
    + intros [[Hx|[->|Hx]] Hne]; auto. done.
Qed.

Lemma custom_contract : contract (tracksCustom).
Proof.
  split.
  - intros p S key (s & -> & <- & Hl).
    exists (demo.Access key s). split; [done|].
    unfold demo.Access. destruct (decide (key ∈ _)) as [Hk|Hk]; simpl.
    + split; [set_solver|done].
    + split; [done|]. by apply linked_push_back.
  - intros p S (s & -> & <- & Hl).
    unfold eviction.Evict. cbn [demo.ofCustom eviction.Evict_ eviction.self].
    unfold demo.Evict.
    destruct (demo.keys s) as [|k0 l] eqn:Ho.
    { simpl. apply linked_nil in Hl. split; [done|].
      exists s. rewrite Hl, Ho. by split; [|split; [|apply linked_empty]]. }
    rewrite bool_decide_eq_false_2 by done.
    destruct ((k0 :: l) !! (length (k0 :: l) / 2)%nat) as [key|] eqn:Hi.
    + cbn [fst snd].
      destruct (linked_delete_index _ _ _ _ Hl Hi) as [Hk Hl'].
      split; [done|]. by eexists (demo.upd _ _ s).
    + apply lookup_ge_None in Hi. exfalso.
      pose proof (Nat.div_lt (length (k0 :: l)) 2) as Hlt.
      cbn [length] in *. lia.
  - intros p S key (s & -> & <- & Hl).
    exists (demo.Remove key s). split; [done|].
    unfold demo.Remove. destruct (decide (key ∈ _)) as [Hk|Hk]; simpl.
    + split; [done|]. by apply linked_remove.
    + split; [set_solver|done].
  - intros p S (s & -> & <- & Hl).
    exists (demo.Clear s). by split; [|split; [|apply linked_empty]].
  - intros p S (s & -> & <- & Hl). unfold eviction.Size. cbn.
    unfold demo.Size. by rewrite (linked_size _ _ Hl).
Qed.



(** A cache driven by the custom policy keeps every key of its store
    tracked by the policy, whatever calls are made and whenever the sweeper
    ticks, so its size never exceeds the size of the policy. *)
Theorem custom_policy_tracks_store (c : cache.cache K V) h :
  coherent tracksCustom c →
  coherent tracksCustom (cache.run h c) ∧
  cache.Size (cache.run h c) ≤ eviction.Size (cache.policy (cache.run h c)).
Proof.
  intros Hc.
  pose proof (coherent_run tracksCustom custom_contract h c Hc) as Hrun.
  split; [done|]. by apply (coherent_sizes tracksCustom custom_contract).
Qed.
End custom_policy.

(** The demo's cache: capacity 3 and the custom policy. *)
Definition customCache : cache.cache string string :=
  cache.New [cache.WithCapacity 3;
             cache.WithEvictionPolicy
               (demo.ofCustom (demo.NewCustomRandomPolicy 3 true))].

Lemma customCache_coherent : coherent tracksCustom customCache.
Proof.
  exists ∅. split.
  - eexists. split; [reflexivity|]. split; [reflexivity|]. apply linked_empty.
  - intros key. unfold storeKeys. rewrite elem_of_dom.
    intros [item Hk]. vm_compute in Hk. discriminate.
Qed.

Lemma custom_policy_tracks_store_witness :
  (cache.Size
     (cache.run (cache.calls [(0%Z, cache.OpSet "A" "1");
                              (0%Z, cache.OpSet "B" "2");
                              (0%Z, cache.OpSet "C" "3");
                              (0%Z, cache.OpSet "D" "4")]) customCache)
   ≤ eviction.Size
       (cache.policy
          (cache.run (cache.calls [(0%Z, cache.OpSet "A" "1");
                                   (0%Z, cache.OpSet "B" "2");
                                   (0%Z, cache.OpSet "C" "3");
                                   (0%Z, cache.OpSet "D" "4")]) customCache)))%Z.
Proof.
  apply (custom_policy_tracks_store customCache).
  apply customCache_coherent.
Defined.

(** ** Construction *)

Section construction.
Context {K : Type} `{Countable K} {V : Type}.
Local Open Scope Z_scope.
Implicit Types (opts : list (cache.Option_ K V)).




(** The period of the sweeper is never below one second nor above one
    minute, whatever the default TTL, and a longer default TTL never gives
    a shorter period. *)
Theorem cleanupInterval_bounds ttl ttl' :
  cache.Second ≤ cache.cleanupInterval ttl ≤ cache.Minute ∧
  (ttl ≤ ttl' → cache.cleanupInterval ttl ≤ cache.cleanupInterval ttl').
Proof.
  unfold cache.cleanupInterval, cache.Minute, cache.Second. split.
  - repeat case_bool_decide; lia.
  - intros Hle. pose proof (Z.quot_le_mono ttl ttl' 2 ltac:(lia) Hle).
    repeat case_bool_decide; lia.
Qed.
End construction.

Lemma cleanupInterval_bounds_witness :
  (cache.cleanupInterval (3 * cache.Second)
   ≤ cache.cleanupInterval (10 * cache.Second))%Z.
Proof.
  apply (cleanupInterval_bounds (3 * cache.Second) (10 * cache.Second)).
  vm_compute. discriminate.
Defined.

(** ** Filling a cache and writing one key more *)

Section overflow.
Context {K : Type} `{Countable K} {V : Type}.
Local Open Scope Z_scope.
Implicit Types (c : cache.cache K V) (key : K) (now : Z)
         (writes : list (Z * (K * V))).

(** A list of writes, each with its instant, as a history of [Set] calls,
    the keys written, and the entries the writes leave when no key is
    written twice. *)
Definition setCalls writes : list (Z * cache.Event K V) :=
  (λ w, (w.1, cache.Call (cache.OpSet w.2.1 w.2.2))) <$> writes.

Definition keysOf writes : list K := (λ w, w.2.1) <$> writes.

Definition entriesOf writes : gmap K (storage.Item V) :=
  list_to_map ((λ w, (w.2.1, plain w.2.2)) <$> writes).

(** A fresh cache with the policy [p0]. *)
Definition cacheWith (p0 : eviction.Policy K) (cap : Z) : cache.cache K V :=
  cache.New [cache.WithCapacity cap; cache.WithEvictionPolicy p0].

Lemma cacheWith_fields p0 cap :
  0 < cap →
  cacheWith p0 cap =
  cache.mkCache (storage.mkStorage ∅ true) p0 cap 0 (24 * cache.Hour) 0 0 0
                true None cache.Open.
Proof.
  intros Hc. unfold cacheWith, cache.New, cache.configure. simpl.
  rewrite (bool_decide_eq_false_2 (cap ≤ 0)) by lia.
  unfold storage.Reserve, storage.NewMemoryStorageWithConfig. simpl.
  by case_bool_decide.
Qed.

Lemma entriesOf_keys writes :
  (λ w : Z * (K * V), (w.2.1, plain w.2.2)) <$> writes = 
  (λ w : Z * (K * V), (w.2.1, plain w.2.2)) <$> writes ∧
  ((λ w : Z * (K * V), (w.2.1, plain w.2.2)) <$> writes).*1 = keysOf writes.
Proof.
  split; [done|]. unfold keysOf. rewrite <- list_fmap_compose. done.
Qed.

Lemma written_room now key item c :
  storage.data (cache.storage c) !! key = None →
  Z.of_nat (size (storage.data (cache.storage c))) < cache.capacity c →
  written now key item c =
  cache.set_policy (eviction.Access key (cache.policy c))
    (with_map (<[key := item]> (storage.data (cache.storage c))) c).
Proof.
  intros Hk Hroom. unfold written, purged. rewrite Hk. cbn [cache.fresh].
  by rewrite bool_decide_eq_false_2 by lia.
Qed.

Lemma written_evicts now key item c victim :
  storage.data (cache.storage c) !! key = None →
  Z.of_nat (size (storage.data (cache.storage c))) >= cache.capacity c →
  (eviction.Evict (cache.policy c)).1 = Some victim →
  storage.data (cache.storage (written now key item c)) =
    <[key := item]> (delete victim (storage.data (cache.storage c))) ∧
  cache.evictions (written now key item c) =
    cache.AddInt64 (cache.evictions c) 1.
Proof.
  intros Hk Hfull Hev. unfold written, purged. rewrite Hk. cbn [cache.fresh].
  rewrite bool_decide_eq_true_2 by lia. by rewrite Hev.
Qed.

(** Writes of distinct keys, no more of them than the capacity, into an
    empty cache without default TTL: no victim is asked for. *)
Lemma fill_room writes c :
  storage.data (cache.storage c) = ∅ →
  cache.defaultTTL c = 0 → 0 ≤ cache.maxTTL c →
  NoDup (keysOf writes) →
  Z.of_nat (length writes) ≤ cache.capacity c →
  let c' := cache.run (setCalls writes) c in
  storage.data (cache.storage c') = entriesOf writes ∧
  cache.policy c' =
    foldl (λ p w, eviction.Access w.2.1 p) (cache.policy c) writes ∧
  counters c' = counters c.
Proof.
  intros Hempty Httl Hmax. induction writes as [|w writes IH] using rev_ind.
  - intros _ _. cbn. by rewrite Hempty.
  - intros Hnd Hlen c'. subst c'.
    unfold keysOf in Hnd. rewrite fmap_app in Hnd.
    apply NoDup_app in Hnd as (Hnd & Hfresh & _).
    rewrite length_app in Hlen. cbn [length] in Hlen.
    destruct IH as (Hd & Hp & Hc); [done|lia|].
    unfold setCalls. rewrite fmap_app. unfold cache.run. rewrite foldl_app.
    fold (setCalls writes). fold (cache.run (setCalls writes) c).
    set (c1 := cache.run (setCalls writes) c) in *.
    destruct (sameSetup_run (setCalls writes) c) as (Hcap & Hdttl & Hmttl & _).
    fold c1 in Hcap, Hdttl, Hmttl.
    cbn [fmap list_fmap foldl cache.step cache.call fst snd].
    unfold cache.Set_. rewrite SetWithTTL_written. cbn [snd].
    assert (clamp c1 (cache.defaultTTL c1) = 0) as ->.
    { unfold clamp. rewrite Hdttl, Hmttl, Httl.
      by rewrite bool_decide_eq_false_2 by lia. }
    assert (storage.data (cache.storage c1) !! w.2.1 = None) as Hk.
    { rewrite Hd. apply not_elem_of_list_to_map_1.
      rewrite (proj2 (entriesOf_keys writes)). intros Hin.
      apply (Hfresh _ Hin). apply list_elem_of_here. }
    rewrite written_room; [|done|].
    + unfold with_map. cbn. rewrite Hd, Hp, foldl_snoc.
      split; [|done]. unfold entriesOf. rewrite fmap_app. cbn.
      rewrite list_to_map_snoc; [done|].
      by rewrite (proj2 (entriesOf_keys writes)); intros Hin;
        apply (Hfresh _ Hin), list_elem_of_here.
    + rewrite Hd. unfold entriesOf.
      rewrite map_size_list_to_map, length_fmap
        by by rewrite (proj2 (entriesOf_keys writes)).
      lia.
Qed.
Lemma remove_dups_id (l : list K) : NoDup l → remove_dups l = l.
Proof.
  induction l as [|x l IH]; intros Hnd; [done|].
  apply NoDup_cons in Hnd as [Hx Hnd]. cbn [remove_dups].
  destruct (decide_rel elem_of x l); [done|]. by rewrite IH.
Qed.

Lemma foldl_ofLRU writes (s : eviction.lru.lruPolicy K) :
  foldl (λ p w, eviction.Access w.2.1 p) (eviction.ofLRU s) writes =
  eviction.ofLRU (lruAccessed (keysOf writes) s).
Proof. revert s. induction writes as [|w writes IH]; intros s; [done|]. apply IH. Qed.

Lemma foldl_ofFIFO writes (s : eviction.fifo.fifoPolicy K) :
  foldl (λ p w, eviction.Access w.2.1 p) (eviction.ofFIFO s) writes =
  eviction.ofFIFO (fifoAccessed (keysOf writes) s).
Proof. revert s. induction writes as [|w writes IH]; intros s; [done|]. apply IH. Qed.

Lemma foldl_ofLIFO writes (s : eviction.lifo.lifoPolicy K) :
  foldl (λ p w, eviction.Access w.2.1 p) (eviction.ofLIFO s) writes =
  eviction.ofLIFO (lifoAccessed (keysOf writes) s).
Proof. revert s. induction writes as [|w writes IH]; intros s; [done|]. apply IH. Qed.

Lemma lru_victim_distinct (l : list K) key pc ts :
  NoDup (key :: l) →
  (eviction.lru.Evict
     (lruAccessed (key :: l) (eviction.lru.NewLRUWithConfig pc ts))).1 =
  Some key.
Proof.
  intros Hnd.
  destruct (lruAccessed_state (key :: l) pc ts) as [Ho _]. cbn zeta in Ho.
  unfold eviction.lru.Evict.
  rewrite Ho, remove_dups_id, last_reverse by done. cbn [head].
  rewrite bool_decide_eq_false_2; [done|].
  rewrite length_reverse. done.
Qed.

Lemma fifo_victim_distinct (l : list K) key pc ts :
  NoDup (key :: l) →
  (eviction.fifo.Evict
     (fifoAccessed (key :: l) (eviction.fifo.NewFIFOWithConfig pc ts))).1 =
  Some key.
Proof.
  intros Hnd.
  destruct (fifoAccessed_state (key :: l) pc ts) as [Ho _]. cbn zeta in Ho.
  unfold eviction.fifo.Evict.
  rewrite Ho, remove_dups_id, reverse_involutive
    by by rewrite reverse_Permutation.
  by rewrite bool_decide_eq_false_2.
Qed.

Lemma lifo_victim_distinct (l : list K) key pc ts :
  NoDup (l ++ [key]) →
  (eviction.lifo.Evict
     (lifoAccessed (l ++ [key]) (eviction.lifo.NewLIFOWithConfig pc ts))).1 =
  Some key.
Proof.
  intros Hnd.
  destruct (lifoAccessed_state (l ++ [key]) pc ts) as [Ho _]. cbn zeta in Ho.
  unfold eviction.lifo.Evict.
  rewrite Ho, remove_dups_id, reverse_involutive
    by by rewrite reverse_Permutation.
  rewrite last_snoc.
  rewrite bool_decide_eq_false_2; [done|].
  rewrite length_app. cbn. lia.
Qed.

(** One write more than the capacity, all keys distinct, on an empty cache
    without default TTL: when the policy, after the accesses of the first
    writes, names [victim], the cache ends with every written entry but the
    victim's, and has counted one eviction more. *)
Lemma overflow_with c writes w victim :
  storage.data (cache.storage c) = ∅ →
  cache.defaultTTL c = 0 → 0 ≤ cache.maxTTL c →
  Z.of_nat (length writes) = cache.capacity c →
  NoDup (keysOf (writes ++ [w])) →
  (eviction.Evict
     (foldl (λ p w, eviction.Access w.2.1 p) (cache.policy c) writes)).1 =
    Some victim →
  victim ∈ keysOf writes →
  let c' := cache.run (setCalls (writes ++ [w])) c in
  storage.data (cache.storage c') = delete victim (entriesOf (writes ++ [w])) ∧
  cache.evictions c' = cache.AddInt64 (cache.evictions c) 1 ∧
  cache.Size c' = cache.capacity c.
Proof.
  intros Hempty Httl Hmax Hlen Hnd Hev Hvin c'. subst c'.
  pose proof Hnd as Hnd'.
  unfold keysOf in Hnd'. rewrite fmap_app in Hnd'.
  apply NoDup_app in Hnd' as (Hndw & Hfresh & _). fold (keysOf writes) in *.
  destruct (fill_room writes c) as (Hd & Hp & Hc); [done|done|done|done|lia|].
  cbn zeta in Hd, Hp, Hc.
  unfold setCalls. rewrite fmap_app. unfold cache.run. rewrite foldl_app.
  fold (setCalls writes). fold (cache.run (setCalls writes) c).
  destruct (sameSetup_run (setCalls writes) c) as (Hcap' & Hdttl & Hmttl & _).
  set (c1 := cache.run (setCalls writes) c) in *.
  cbn [fmap list_fmap foldl cache.step cache.call fst snd].
  unfold cache.Set_. rewrite SetWithTTL_written. cbn [snd].
  assert (clamp c1 (cache.defaultTTL c1) = 0) as ->.
  { unfold clamp. rewrite Hdttl, Hmttl, Httl.
    by rewrite bool_decide_eq_false_2 by lia. }
  assert (victim ≠ w.2.1) as Hne.
  { intros ->. apply (Hfresh _ Hvin). apply list_elem_of_here. }
  assert (w.2.1 ∉ keysOf writes) as Hnew.
  { intros Hin. apply (Hfresh _ Hin). apply list_elem_of_here. }
  assert (storage.data (cache.storage c1) !! w.2.1 = None) as Hk.
  { rewrite Hd. apply not_elem_of_list_to_map_1.
    by rewrite (proj2 (entriesOf_keys writes)). }
  assert (size (storage.data (cache.storage c1)) = length writes) as Hsize.
  { rewrite Hd. unfold entriesOf.
    by rewrite map_size_list_to_map, length_fmap
      by by rewrite (proj2 (entriesOf_keys writes)). }
  destruct (written_evicts w.1 w.2.1
              (storage.SetTTL w.1 0 (storage.newItem w.2.2)) c1 victim)
    as (Hd' & He'); [done|rewrite Hsize, Hcap'; lia|by rewrite Hp|].
  split; [|split].
  - rewrite Hd', Hd. unfold entriesOf. rewrite fmap_app. cbn.
    rewrite list_to_map_snoc by by rewrite (proj2 (entriesOf_keys writes)).
    by rewrite delete_insert_ne by done.
  - rewrite He'. injection Hc as _ _ ->. done.
  - unfold cache.Size, storage.Size. rewrite Hd'.
    rewrite map_size_insert_None by by rewrite lookup_delete_ne by done.
    rewrite map_size_delete_Some.
    + rewrite Hsize, <- Hlen. destruct writes; [|cbn; lia].
      by apply not_elem_of_nil in Hvin.
    + apply not_eq_None_Some. rewrite Hd. intros Hnone.
      apply not_elem_of_list_to_map_2 in Hnone.
      by rewrite (proj2 (entriesOf_keys writes)) in Hnone.
Qed.

Lemma overflow_fresh p0 cap writes w victim :
  Z.of_nat (length writes) = cap → 0 < cap →
  NoDup (keysOf (writes ++ [w])) →
  (eviction.Evict
     (foldl (λ p w, eviction.Access w.2.1 p) p0 writes)).1 = Some victim →
  victim ∈ keysOf writes →
  let c' := cache.run (setCalls (writes ++ [w])) (cacheWith p0 cap) in
  storage.data (cache.storage c') = delete victim (entriesOf (writes ++ [w])) ∧
  cache.evictions c' = 1 ∧
  cache.Size c' = cap.
Proof.
  intros Hlen Hcap Hnd Hev Hin. rewrite cacheWith_fields by done.
  destruct (overflow_with
              (cache.mkCache (storage.mkStorage ∅ true) p0 cap 0
                 (24 * cache.Hour) 0 0 0 true None cache.Open)
              writes w victim) as (Hd & He & Hs); done.
Qed.

(** On a fresh cache of capacity [n], after the writes of [n] distinct keys,
    the write of one more key evicts the key written first under the LRU
    and the FIFO policy and the key written last under the LIFO policy; the
    other [n] entries are all there, and one eviction is counted. *)
Theorem fill_then_overflow first writes final w pc ts :
  NoDup (keysOf (first :: writes ++ [final; w])) →
  let fill := first :: writes ++ [final] in
  let cap := Z.of_nat (length fill) in
  let after p0 := cache.run (setCalls (fill ++ [w])) (cacheWith p0 cap) in
  let lru := after (eviction.ofLRU (eviction.lru.NewLRUWithConfig pc ts)) in
  let fifo := after (eviction.ofFIFO (eviction.fifo.NewFIFOWithConfig pc ts)) in
  let lifo := after (eviction.ofLIFO (eviction.lifo.NewLIFOWithConfig pc ts)) in
  storage.data (cache.storage lru) = delete first.2.1 (entriesOf (fill ++ [w])) ∧
  storage.data (cache.storage fifo) = delete first.2.1 (entriesOf (fill ++ [w])) ∧
  storage.data (cache.storage lifo) = delete final.2.1 (entriesOf (fill ++ [w])) ∧
  cache.evictions lru = 1 ∧ cache.evictions fifo = 1 ∧ cache.evictions lifo = 1 ∧
  cache.Size lru = cap ∧ cache.Size fifo = cap ∧ cache.Size lifo = cap.
Proof.
  intros Hnd fill cap after lru fifo lifo.
  assert (0 < cap) as Hcap by (unfold cap, fill; cbn; lia).
  assert (NoDup (keysOf (fill ++ [w]))) as Hnd'.
  { unfold fill. by rewrite <- app_comm_cons, <- app_assoc. }
  assert (NoDup (keysOf fill)) as Hndf.
  { unfold keysOf in Hnd'. rewrite fmap_app in Hnd'.
    by apply NoDup_app in Hnd' as (? & _). }
  assert (∀ p0 victim,
    (eviction.Evict
       (foldl (λ p w, eviction.Access w.2.1 p) p0 fill)).1 = Some victim →
    victim ∈ keysOf fill →
    storage.data (cache.storage (after p0)) =
      delete victim (entriesOf (fill ++ [w])) ∧
    cache.evictions (after p0) = 1 ∧ cache.Size (after p0) = cap) as Hover.
  { intros p0 victim Hev Hin. by apply overflow_fresh. }
  destruct (Hover (eviction.ofLRU (eviction.lru.NewLRUWithConfig pc ts))
                  first.2.1) as (? & ? & ?).
  { rewrite foldl_ofLRU. by apply lru_victim_distinct. }
  { apply list_elem_of_here. }
  destruct (Hover (eviction.ofFIFO (eviction.fifo.NewFIFOWithConfig pc ts))
                  first.2.1) as (? & ? & ?).
  { rewrite foldl_ofFIFO. by apply fifo_victim_distinct. }
  { apply list_elem_of_here. }
  destruct (Hover (eviction.ofLIFO (eviction.lifo.NewLIFOWithConfig pc ts))
                  final.2.1) as (? & ? & ?).
  { rewrite foldl_ofLIFO. unfold fill, keysOf.
    rewrite app_comm_cons, fmap_app. cbn [fmap list_fmap].
    apply lifo_victim_distinct.
    unfold fill, keysOf in Hndf.
    by rewrite app_comm_cons, fmap_app in Hndf. }
  { unfold fill, keysOf. rewrite app_comm_cons, fmap_app, elem_of_app.
    right. apply list_elem_of_here. }
  done.
Qed.
End overflow.

Lemma fill_then_overflow_witness :
  NoDup (keysOf [(0%Z, ("a", "x")); (1%Z, ("b", "y")); (2%Z, ("c", "z"));
                 (3%Z, ("d", "u"))]) ∧
  storage.data
    (cache.storage
       (cache.run
          (setCalls [(0%Z, ("a", "x")); (1%Z, ("b", "y")); (2%Z, ("c", "z"));
                     (3%Z, ("d", "u"))])
          (cacheWith (eviction.ofLRU (eviction.lru.NewLRUWithConfig 3 true))
                     3%Z))) =
  delete "a" (entriesOf [(0%Z, ("a", "x")); (1%Z, ("b", "y")); (2%Z, ("c", "z"));
                         (3%Z, ("d", "u"))]) ∧
  storage.data
    (cache.storage
       (cache.run
          (setCalls [(0%Z, ("a", "x")); (1%Z, ("b", "y")); (2%Z, ("c", "z"));
                     (3%Z, ("d", "u"))])
          (cacheWith (eviction.ofLIFO (eviction.lifo.NewLIFOWithConfig 3 true))
                     3%Z))) =
  delete "c" (entriesOf [(0%Z, ("a", "x")); (1%Z, ("b", "y")); (2%Z, ("c", "z"));
                         (3%Z, ("d", "u"))]).
Proof.
  assert (NoDup (keysOf [(0%Z, ("a", "x")); (1%Z, ("b", "y"));
                         (2%Z, ("c", "z")); (3%Z, ("d", "u"))])) as Hnd.
  { unfold keysOf. cbn. apply (bool_decide_unpack _). vm_compute. exact I. }
  split; [exact Hnd|].
  destruct (fill_then_overflow (0%Z, ("a", "x")) [(1%Z, ("b", "y"))]
              (2%Z, ("c", "z")) (3%Z, ("d", "u")) 3%Z true Hnd)
    as (Hlru & _ & Hlifo & _).
  split; [exact Hlru|exact Hlifo].
Defined.
